(** * WFS FUSE driver (wfsfuse.c, wfs.h): a shallow embedding

    The driver serves a flat file-system image through FUSE callbacks.
    Everything it knows about the image it learns through [pread] on the
    image's file descriptor; the embedding therefore threads a [world]
    (the bytes behind the descriptor and the log of the reads issued)
    through a small state monad, and every C function below is
    translated statement by statement into that monad.

    Conventions.
    - A byte is an [ascii]; a C string argument is a [string] read up to
      its first NUL ([c_str]).
    - Fixed-width C integers are [Z] with the conversion written out
      ([to_u16], [to_u32], [to_u64], [to_int]).
    - The host is little-endian (the packed record is read in place).
    - errno values are those of Linux.
    - The descriptor is open and [malloc] succeeds. *)

From Stdlib Require Import ZArith List String Ascii Bool Lia.
Import ListNotations.
Open Scope Z_scope.

(** ** Machine integers *)

Definition to_u16 (x : Z) : Z := x mod 2 ^ 16.
Definition to_u32 (x : Z) : Z := x mod 2 ^ 32.
Definition to_u64 (x : Z) : Z := x mod 2 ^ 64.
(** [int]: 32 bits, two's complement. *)
Definition to_int (x : Z) : Z := (x + 2 ^ 31) mod 2 ^ 32 - 2 ^ 31.

Definition byte_val (c : ascii) : Z := Z.of_N (N_of_ascii c).
Definition NUL : ascii := Ascii.zero.
Definition is_nul (c : ascii) : bool := Ascii.eqb c NUL.

(** Little-endian loads of a [uint16_t] and a [uint32_t]. *)
Definition le16 (b0 b1 : ascii) : Z := byte_val b0 + 256 * byte_val b1.
Definition le32 (b0 b1 b2 b3 : ascii) : Z :=
  byte_val b0 + 256 * byte_val b1 + 65536 * byte_val b2 + 16777216 * byte_val b3.

(** ** errno.h, limits.h *)

Definition ENOENT : Z := 2.
Definition EIO : Z := 5.
Definition ENOTDIR : Z := 20.
Definition EISDIR : Z := 21.
Definition EINVAL : Z := 22.
Definition ENOSYS : Z := 38.
Definition PATH_MAX : nat := 4096.

(** ** wfs.h: layout constants *)

Definition WFS_MAGIC_SIZE : Z := 16.
Definition WFS_FILENAME_SIZE : Z := 58.
(** sizeof(wfs_file_entry_t): packed, 58 + 2 + 4. *)
Definition sizeof_entry : Z := 64.
Definition WFS_BLOCK_SIZE : Z := 512.
Definition WFS_N_FILES : Z := 64.
Definition WFS_N_BLOCKS : Z := 16384.
Definition WFS_SIZE_MASK : Z := 0x0fffffff.
(** [1 << 31] is an [int]; against the [uint32_t] size field it acts
    as bit 31. *)
Definition WFS_SIZE_IS_DIRECTORY : Z := 2 ^ 31.
Definition WFS_BLOCK_FREE : Z := 0.
Definition WFS_BLOCK_EOF : Z := 0xfffe.
Definition WFS_ENTRIES_START : Z := WFS_MAGIC_SIZE.
Definition WFS_BLOCK_TABLE_START : Z :=
  WFS_ENTRIES_START + WFS_N_FILES * sizeof_entry.
Definition WFS_BLOCK_TABLE_SIZE : Z := WFS_N_BLOCKS * 2.
Definition WFS_DATA_START : Z := WFS_BLOCK_TABLE_START + WFS_BLOCK_TABLE_SIZE.

Definition wfs_get_size : Z :=
  WFS_MAGIC_SIZE + sizeof_entry * WFS_N_FILES
  + WFS_N_BLOCKS * 2 + WFS_N_BLOCKS * WFS_BLOCK_SIZE.

(** ** The file entry record *)

Record wfs_file_entry_t := mk_entry {
  filename : list ascii;   (* char filename[58] *)
  start_block : Z;         (* uint16_t *)
  size : Z                 (* uint32_t *)
}.

(** [{ { 0, }, }] and [memset (&e, 0, sizeof e)]. *)
Definition zero_entry : wfs_file_entry_t :=
  mk_entry (repeat NUL 58) 0 0.

(** The record as it lies in a 64-byte buffer. *)
Definition entry_of_bytes (b : list ascii) : wfs_file_entry_t :=
  mk_entry (firstn 58 b)
           (le16 (nth 58 b NUL) (nth 59 b NUL))
           (le32 (nth 60 b NUL) (nth 61 b NUL) (nth 62 b NUL) (nth 63 b NUL)).

Definition wfs_file_entry_is_empty (entry : wfs_file_entry_t) : bool :=
  is_nul (nth 0 (filename entry) NUL) || (start_block entry =? WFS_BLOCK_FREE).

Definition wfs_file_entry_is_directory (entry : wfs_file_entry_t) : bool :=
  Z.land (size entry) WFS_SIZE_IS_DIRECTORY =? WFS_SIZE_IS_DIRECTORY.

Definition wfs_file_entry_get_size (entry : wfs_file_entry_t) : Z :=
  Z.land (size entry) WFS_SIZE_MASK.

(** The sum is formed in [size_t] and returned as [uint32_t]. *)
Definition wfs_get_block_offset (block : Z) : Z :=
  to_u32 (WFS_DATA_START + block * WFS_BLOCK_SIZE).

(** ** The world: the image behind the descriptor *)

(** The file behind [img->fd]: its length and its bytes. *)
Record wfs_image_t := mk_image {
  image_size : Z;
  content : Z -> ascii
}.

(** What a call can observe and what it leaves behind: the image, the
    [pread] calls issued so far as (offset, count), oldest first, and the
    bytes an object holds before the program has stored to it. *)
Record world := mk_world {
  image : wfs_image_t;
  reads : list (Z * Z);
  indeterminate : nat -> ascii
}.

Definition M (A : Type) : Type := world -> A * world.

Definition ret {A} (a : A) : M A := fun w => (a, w).
Definition bind {A B} (m : M A) (k : A -> M B) : M B :=
  fun w => let (a, w') := m w in k a w'.

Declare Scope wfs_scope.
Delimit Scope wfs_scope with wfs.
Notation "x <- m ;; k" := (bind m (fun x => k))
  (at level 61, m at next level, right associativity) : wfs_scope.
Notation "' p <- m ;; k" := (bind m (fun x => match x with p => k end))
  (at level 61, p pattern, m at next level, right associativity) : wfs_scope.
Open Scope wfs_scope.

(** The bytes of the image at [off .. off+n-1], as far as it reaches. *)
Definition image_bytes (img : wfs_image_t) (off : Z) (n : Z) : list ascii :=
  map (fun i => content img (off + Z.of_nat i))
      (seq 0 (Z.to_nat (Z.min n (image_size img - off)))).

(** [pread (fd, buf, count, offset)]: the bytes delivered, and the
    return value: their number, or -1 for a negative offset. *)
Definition pread (count : Z) (offset : Z) : M (Z * list ascii) :=
  fun w =>
    let w' := mk_world (image w) (reads w ++ [(offset, count)]) (indeterminate w) in
    if offset <? 0 then ((-1, []), w')
    else
      let got := image_bytes (image w) offset count in
      ((Z.of_nat (List.length got), got), w').

(** [bs] stored at offset [off] over the bytes [f]. *)
Definition put (off : Z) (bs : list ascii) (f : Z -> ascii) : Z -> ascii :=
  fun a =>
    if (off <=? a) && (a <? off + Z.of_nat (List.length bs))
    then nth (Z.to_nat (a - off)) bs NUL
    else f a.

(** [pwrite (fd, buf, count, offset)], the other way to the image
    that the descriptor, opened [O_RDWR], offers: the image with [buf]
    stored at [offset]. No function of the driver calls it. *)
Definition pwrite (buf : list ascii) (offset : Z) : M Z :=
  fun w =>
    if offset <? 0 then (-1, w)
    else
      let count := Z.of_nat (List.length buf) in
      let img := image w in
      (count,
       mk_world (mk_image (Z.max (image_size img) (offset + count))
                          (put offset buf (content img)))
                (reads w) (indeterminate w)).

(** A buffer that held [old] after [got] was stored at its start. *)
Definition overlay (got old : list ascii) : list ascii :=
  got ++ skipn (List.length got) old.

(** An object of [n] bytes nothing was stored to yet. *)
Definition uninitialised (n : nat) : M (list ascii) :=
  fun w => (map (indeterminate w) (seq 0 n), w).

(** ** Low-level file system routines *)

(** [idx] is the [uint16_t] parameter; [value] starts as 0 and keeps
    the bytes a short read does not deliver. *)
Definition wfs_block_table_read (idx : Z) : M Z :=
  let offset := to_u32 (WFS_BLOCK_TABLE_START + idx * 2) in
  '(_, got) <- pread 2 offset ;;
  let value := overlay got [NUL; NUL] in
  ret (le16 (nth 0 value NUL) (nth 1 value NUL)).

Definition wfs_get_block (current_block : Z) : M Z :=
  wfs_block_table_read (to_u16 (current_block - 1)).

(** The [while (off >= o + WFS_BLOCK_SIZE)] loop of
    [wfs_get_current_block]. [inl block] is the early
    [return block] on the end sentinel, [inr (block, o)] the state at
    loop exit. [o] grows by a block per round, so [off / 512] rounds
    exhaust the condition ([current_block_loop_exit]). *)
Fixpoint current_block_loop (fuel : nat) (off o block : Z) : M (Z + Z * Z) :=
  match fuel with
  | O => ret (inr (block, o))
  | S fuel' =>
      if off >=? o + WFS_BLOCK_SIZE then
        block <- wfs_block_table_read (to_u16 (block - 1)) ;;
        if block =? WFS_BLOCK_EOF then ret (inl block)
        else current_block_loop fuel' off (o + WFS_BLOCK_SIZE) block
      else ret (inr (block, o))
  end.

(** Returns the block and what [*block_position] holds afterwards
    ([block_position] is what it held before). *)
Definition wfs_get_current_block (entry : wfs_file_entry_t) (off : Z)
    (block_position : Z) : M (Z * Z) :=
  let block := start_block entry in
  if block =? WFS_BLOCK_EOF then ret (block, block_position)
  else
    r <- current_block_loop (Z.to_nat (off / WFS_BLOCK_SIZE)) off 0 block ;;
    match r with
    | inl block => ret (block, block_position)
    | inr (block, o) => ret (block, to_u16 (off - o))
    end.

(** [current_block - 1 >= WFS_N_BLOCKS] is evaluated in [int]. *)
Definition wfs_get_next_block (current_block : Z) : M Z :=
  if current_block =? WFS_BLOCK_EOF then ret current_block
  else if current_block - 1 >=? WFS_N_BLOCKS then ret WFS_BLOCK_EOF
  else wfs_block_table_read (to_u16 (current_block - 1)).

(** ** Generic file entry operations *)

Inductive wfs_file_entry_op_t :=
| WFS_FILE_ENTRY_OP_FIND
| WFS_FILE_ENTRY_OP_COUNT
| WFS_FILE_ENTRY_OP_CALLBACK
| WFS_FILE_ENTRY_OP_MKDIR
| WFS_FILE_ENTRY_OP_RMDIR.

Definition is_find (op : wfs_file_entry_op_t) : bool :=
  match op with WFS_FILE_ENTRY_OP_FIND => true | _ => false end.

(** [strncmp (a, b, n) == 0] on character arrays. *)
Fixpoint strncmp_eq (a b : list ascii) (n : nat) : bool :=
  match n with
  | O => true
  | S n' =>
      let ca := hd NUL a in
      let cb := hd NUL b in
      if Ascii.eqb ca cb
      then (if is_nul ca then true else strncmp_eq (tl a) (tl b) n')
      else false
  end.

Section EntryOperation.
(** The callback's [void *data] is a value of type [D]; a callback
    returns what [data] points to afterwards. *)
Context {D : Type}.
Variable op : wfs_file_entry_op_t.
Variable callback : wfs_file_entry_t -> D -> D.
Variable entrystart : Z.

(** The [for] loop over the slots [idxs]. The result is the return
    value, [*entry] and [*callback_data]. *)
Fixpoint entry_loop (idxs : list nat) (count : Z) (entry : wfs_file_entry_t)
    (data : D) : M (Z * wfs_file_entry_t * D) :=
  match idxs with
  | [] => ret (count, entry, data)
  | i :: rest =>
      old <- uninitialised 64 ;;
      '(_, got) <- pread sizeof_entry (entrystart + Z.of_nat i * sizeof_entry) ;;
      let tmp_entry := entry_of_bytes (overlay got old) in
      match op with
      | WFS_FILE_ENTRY_OP_FIND =>
          if wfs_file_entry_is_empty tmp_entry
          then entry_loop rest count entry data
          else if strncmp_eq (filename tmp_entry) (filename entry)
                             (Z.to_nat WFS_FILENAME_SIZE)
          then ret (1, tmp_entry, data)
          else entry_loop rest count entry data
      | WFS_FILE_ENTRY_OP_COUNT =>
          entry_loop rest
            (if wfs_file_entry_is_empty tmp_entry then count else to_int (count + 1))
            entry data
      | WFS_FILE_ENTRY_OP_CALLBACK =>
          entry_loop rest count entry
            (if wfs_file_entry_is_empty tmp_entry then data
             else callback tmp_entry data)
      | WFS_FILE_ENTRY_OP_MKDIR => entry_loop rest count entry data
      | WFS_FILE_ENTRY_OP_RMDIR => entry_loop rest count entry data
      end
  end.
End EntryOperation.

(** The number of slots the scan visits. *)
Definition aantalfiles : nat := 16.

(** [parent = None] is the NULL pointer. *)
Definition wfs_file_entry_operation {D : Type}
    (parent : option wfs_file_entry_t) (op : wfs_file_entry_op_t)
    (entry : wfs_file_entry_t) (callback : wfs_file_entry_t -> D -> D)
    (data : D) : M (Z * wfs_file_entry_t * D) :=
  match parent with
  | None => ret (- EINVAL, entry, data)
  | Some parent =>
      let entrystart :=
        if negb (wfs_file_entry_is_empty parent)
        then to_int (wfs_get_block_offset (start_block parent - 1))
        else WFS_ENTRIES_START in
      if is_find op && is_nul (nth 0 (filename entry) NUL)
      then ret (- EINVAL, entry, data)
      else entry_loop op callback entrystart (seq 0 aantalfiles) 0 entry data
  end.

(** ** C strings *)

Definition SLASH : ascii := "/"%char.

(** The string a [const char *] denotes: the characters before the
    terminator. *)
Fixpoint c_str (s : string) : string :=
  match s with
  | EmptyString => EmptyString
  | String c s' => if is_nul c then EmptyString else String c (c_str s')
  end.

(** [strchr (s, c) - s], when [strchr] finds [c]. *)
Fixpoint strchr (s : string) (c : ascii) : option nat :=
  match s with
  | EmptyString => None
  | String a s' => if Ascii.eqb a c then Some O else option_map S (strchr s' c)
  end.

(** [strrchr (s, c) - s]. *)
Fixpoint strrchr (s : string) (c : ascii) : option nat :=
  match s with
  | EmptyString => None
  | String a s' =>
      match strrchr s' c with
      | Some k => Some (S k)
      | None => if Ascii.eqb a c then Some O else None
      end
  end.

(** [s + n]. *)
Fixpoint drop (n : nat) (s : string) : string :=
  match n, s with
  | O, _ => s
  | S n', EmptyString => EmptyString
  | S n', String _ s' => drop n' s'
  end.

(** The first [n] characters: [s] after [s[n] = 0]. *)
Fixpoint take (n : nat) (s : string) : string :=
  match n, s with
  | O, _ => EmptyString
  | S n', EmptyString => EmptyString
  | S n', String c s' => String c (take n' s')
  end.

(** Skipping the separators in front of a component: the pointer
    moves on while it points at a slash. *)
Fixpoint skip_slashes (path : string) : string :=
  match path with
  | String c s' => if Ascii.eqb c SLASH then skip_slashes s' else path
  | EmptyString => path
  end.

Definition strnlen (s : string) (maxlen : nat) : nat :=
  Nat.min (String.length s) maxlen.

(** The [n] characters [strncpy] stores: those of [src], then NULs. *)
Fixpoint strncpy_chars (n : nat) (src : string) : list ascii :=
  match n with
  | O => []
  | S n' =>
      match src with
      | EmptyString => NUL :: strncpy_chars n' EmptyString
      | String c s' =>
          if is_nul c then NUL :: strncpy_chars n' EmptyString
          else c :: strncpy_chars n' s'
      end
  end.

Definition strncpy (dst : list ascii) (src : string) (n : Z) : list ascii :=
  overlay (strncpy_chars (Z.to_nat n) src) dst.

(** [a[i] = c]. *)
Fixpoint store (i : nat) (c : ascii) (a : list ascii) : list ascii :=
  match i, a with
  | _, [] => []
  | O, _ :: a' => c :: a'
  | S i', x :: a' => x :: store i' c a'
  end.

(** The string held in a character array. *)
Fixpoint string_of_chars (a : list ascii) : string :=
  match a with
  | [] => EmptyString
  | c :: a' => if is_nul c then EmptyString else String c (string_of_chars a')
  end.

(** ** Path resolution *)

(** "Find end of new component": [end - path] for a [path] that
    stands behind the separators, or [None] where the function is done
    and returns the current entry. *)
Definition component_end (path : string) : option nat :=
  match strchr path SLASH with
  | Some e => Some e
  | None =>
      let len := strnlen path PATH_MAX in
      if (0 <? len)%nat then Some len else None
  end.

(** [current_entry.filename] after the [memset], the [strncpy] of
    [len] characters and the store of the terminator at [len - 1]. *)
Definition component_name (path : string) (len : Z) : list ascii :=
  store (Z.to_nat (len - 1)) NUL (strncpy (filename zero_entry) path len).

(** The [while (path && (path = strchr (path, '/')))] loop of
    [wfs_find_entry]. Every round moves [path] forward, so the length of
    the path bounds the rounds ([find_loop_total]); the outer [option] is
    [None] only when [fuel] runs out. The inner one is the function's
    result: [Some e] for [*entry = e; return true], [None] for
    [return false]. *)
Fixpoint find_loop (fuel : nat) (path : string)
    (current_entry : wfs_file_entry_t) : M (option (option wfs_file_entry_t)) :=
  match fuel with
  | O => ret None
  | S fuel' =>
      match strchr path SLASH with
      | None => ret (Some (Some current_entry))
      | Some k =>
          let path := drop k path in
          let parent_entry := current_entry in
          let path := skip_slashes path in
          match component_end path with
          | None => ret (Some (Some current_entry))
          | Some e =>
              let len := to_int (Z.of_nat e + 1) in
              if len >=? WFS_FILENAME_SIZE - 1 then ret (Some None)
              else
                let current_entry := mk_entry (component_name path len) 0 0 in
                if negb (is_nul (nth 0 (filename current_entry) NUL)) then
                  '(r, found, _) <-
                    wfs_file_entry_operation (Some parent_entry)
                      WFS_FILE_ENTRY_OP_FIND current_entry (fun _ d => d) tt ;;
                  if r <=? 0 then ret (Some None)
                  else find_loop fuel' (drop e path) found
                else find_loop fuel' (drop e path) current_entry
          end
      end
  end.

Definition wfs_find_entry (path : string) : M (option wfs_file_entry_t) :=
  let path := c_str path in
  if (String.length path =? 0)%nat
     || negb (Ascii.eqb (hd NUL (list_ascii_of_string path)) SLASH)
  then ret None
  else
    r <- find_loop (S (String.length path)) path zero_entry ;;
    match r with
    | Some result => ret result
    | None => ret None
    end.

(** [drop_trailing_slashes]: the string left in [path_copy]. *)
Fixpoint drop_trailing_slashes (path_copy : string) : string :=
  match path_copy with
  | EmptyString => EmptyString
  | String c s' =>
      match drop_trailing_slashes s' with
      | EmptyString => if Ascii.eqb c SLASH then EmptyString else String c EmptyString
      | rest => String c rest
      end
  end.

(** The result is [res] and what [*parent_entry] holds afterwards. *)
Definition wfs_get_parent_entry (path : string)
    (parent_entry : wfs_file_entry_t) : M (Z * wfs_file_entry_t) :=
  let path_copy := drop_trailing_slashes (c_str path) in
  if (String.length path_copy =? 0)%nat then ret (- EINVAL, parent_entry)
  else
    match strrchr path_copy SLASH with
    | None => ret (- EINVAL, parent_entry)
    | Some O => ret (0, zero_entry)
    | Some sep =>
        let dirname := take sep path_copy in
        r <- wfs_find_entry dirname ;;
        match r with
        | None => ret (- ENOENT, parent_entry)
        | Some parent_entry =>
            if negb (wfs_file_entry_is_empty parent_entry)
               && negb (wfs_file_entry_is_directory parent_entry)
            then ret (- EIO, parent_entry)
            else ret (0, parent_entry)
        end
    end.

(** [None] is the NULL result. *)
Definition wfs_get_basename (path : string) : option string :=
  let path_copy := drop_trailing_slashes (c_str path) in
  if (String.length path_copy =? 0)%nat then None
  else
    match strrchr path_copy SLASH with
    | None => None
    | Some sep => Some (drop (S sep) path_copy)
    end.

(** ** The FUSE operations *)

(** The fields of [struct stat] the driver sets. *)
Record stat := mk_stat {
  st_mode : Z;
  st_nlink : Z;
  st_size : Z
}.

Definition S_IFDIR : Z := 0x4000.
Definition S_IFREG : Z := 0x8000.

(** [filler (buf, name, NULL, 0)]: [buf] is the list of names handed
    over so far. *)
Definition filler (buf : list string) (name : string) : list string :=
  buf ++ [name].

(** A name field without a terminator is handed over as its 58
    characters. *)
Definition wfs_readdir_callback (entry : wfs_file_entry_t)
    (data : list string) : list string :=
  filler data (string_of_chars (filename entry)).

(** The entry operation gets NULL for [entry], which the callback
    operation never looks at; [zero_entry] stands in for it. *)
Definition wfs_readdir (path : string) (buf : list string)
    : M (Z * list string) :=
  r <- wfs_find_entry path ;;
  match r with
  | None => ret (- ENOENT, buf)
  | Some entry =>
      if negb (wfs_file_entry_is_empty entry)
         && negb (wfs_file_entry_is_directory entry)
      then ret (- ENOTDIR, buf)
      else
        let buf := filler buf "." in
        let buf := filler buf ".." in
        '(_, _, buf) <-
          wfs_file_entry_operation (Some entry) WFS_FILE_ENTRY_OP_CALLBACK
            zero_entry wfs_readdir_callback buf ;;
        ret (0, buf)
  end.

(** [parent] is fresh from [malloc]; [wfs_get_basename] returning NULL
    makes [strlen (name)] fault, which is the result [None]. [path2] is
    filled and never read. The source breaks off inside the argument
    list of the entry operation; it is taken with no callback. *)
Definition wfs_mkdir (path : string) (mode : Z) : M (option Z) :=
  bytes <- uninitialised 64 ;;
  let parent := entry_of_bytes bytes in
  match wfs_get_basename path with
  | None => ret None
  | Some name =>
      '(_, parent) <- wfs_get_parent_entry path parent ;;
      let entry := zero_entry in
      _ <- wfs_file_entry_operation (Some parent) WFS_FILE_ENTRY_OP_MKDIR
             entry (fun _ d => d) tt ;;
      ret (Some (- ENOSYS))
  end.

Definition wfs_rmdir (path : string) : M Z := ret (- ENOSYS).

Definition wfs_getattr (path : string) : M (Z * stat) :=
  let stbuf := mk_stat 0 0 0 in
  if String.eqb (c_str path) "/" then
    ret (0, mk_stat (Z.lor S_IFDIR 493 (* 0755 *)) 2 (st_size stbuf))
  else
    r <- wfs_find_entry path ;;
    match r with
    | None => ret (- ENOENT, stbuf)
    | Some entry =>
        let stbuf :=
          if wfs_file_entry_is_directory entry
          then mk_stat (Z.lor S_IFDIR 292 (* 0444 *)) 2 (st_size stbuf)
          else mk_stat (Z.lor S_IFREG 292 (* 0444 *)) 1 (st_size stbuf) in
        ret (0, mk_stat (st_mode stbuf) (st_nlink stbuf)
                        (wfs_file_entry_get_size entry))
    end.

Definition wfs_open (path : string) : M Z :=
  r <- wfs_find_entry path ;;
  match r with
  | None => ret (- ENOENT)
  | Some entry =>
      if wfs_file_entry_is_directory entry then ret (- EISDIR) else ret 0
  end.

Definition wfs_create (path : string) (mode : Z) : M Z := ret (- ENOSYS).

(** The [while] loop of [wfs_read]. [buf] is what has been stored at
    the caller's buffer so far. A round that transfers nothing on a
    chain that does not end repeats for ever, hence the fuel: [None] is
    a loop that has not returned within [fuel] rounds. *)
Fixpoint read_loop (fuel : nat) (size block block_position read : Z)
    (buf : list ascii) : M (option (Z * list ascii)) :=
  if (0 <? size) && (WFS_BLOCK_FREE <? block) && (block <=? WFS_BLOCK_EOF) then
    match fuel with
    | O => ret None
    | S fuel' =>
        let block_offset := wfs_get_block_offset (block - 1) in
        let transfer :=
          if block_position =? 0 then to_u16 WFS_BLOCK_SIZE
          else to_u16 (WFS_BLOCK_SIZE - block_position) in
        let transfer := if transfer >? size then to_u16 size else transfer in
        '(n, got) <- pread transfer (block_offset + block_position) ;;
        let transfer := to_u16 n in
        let size := to_u64 (size - transfer) in
        let read := to_int (read + transfer) in
        let buf := buf ++ got in
        if 0 <? size then
          block <- wfs_get_next_block (to_u16 block) ;;
          let block_position := 0 in
          if (block =? WFS_BLOCK_FREE) || (block >=? WFS_BLOCK_EOF)
          then ret (Some (- EIO, buf))
          else read_loop fuel' size block block_position read buf
        else read_loop fuel' size block block_position read buf
    end
  else ret (Some (read, buf)).

(** [offset > current_size] compares in [size_t]. *)
Definition wfs_read (fuel : nat) (path : string) (size : Z) (offset : Z)
    : M (option (Z * list ascii)) :=
  r <- wfs_find_entry path ;;
  match r with
  | None => ret (Some (- ENOENT, []))
  | Some entry =>
      let current_size := wfs_file_entry_get_size entry in
      if to_u64 offset >? current_size then ret (Some (- EINVAL, []))
      else
        old <- uninitialised 2 ;;
        let block_position := le16 (nth 0 old NUL) (nth 1 old NUL) in
        '(block, block_position) <-
          wfs_get_current_block entry offset block_position ;;
        if block >=? WFS_BLOCK_EOF then ret (Some (- EIO, []))
        else
          let size :=
            if to_u64 (offset + size) >? current_size
            then to_u64 (current_size - offset) else size in
          read_loop fuel size block block_position 0 []
  end.

Definition wfs_write (path : string) (buf : list ascii) (size : Z)
    (offset : Z) : M Z := ret (- ENOSYS).

(** [wfs_oper]: the callback table, as the calls FUSE can make and
    what each hands back. *)
Inductive fuse_call :=
| call_readdir (path : string)
| call_mkdir (path : string) (mode : Z)
| call_rmdir (path : string)
| call_getattr (path : string)
| call_open (path : string)
| call_create (path : string) (mode : Z)
| call_read (path : string) (size offset : Z)
| call_write (path : string) (buf : list ascii) (size offset : Z).

Inductive fuse_reply :=
| reply_code (res : Z)
| reply_names (res : Z) (names : list string)
| reply_stat (res : Z) (st : stat)
| reply_data (res : Z) (data : list ascii)
| reply_none.

Definition wfs_oper (fuel : nat) (c : fuse_call) : M fuse_reply :=
  match c with
  | call_readdir path =>
      '(res, names) <- wfs_readdir path [] ;; ret (reply_names res names)
  | call_mkdir path mode =>
      r <- wfs_mkdir path mode ;;
      ret (match r with Some res => reply_code res | None => reply_none end)
  | call_rmdir path => res <- wfs_rmdir path ;; ret (reply_code res)
  | call_getattr path =>
      '(res, st) <- wfs_getattr path ;; ret (reply_stat res st)
  | call_open path => res <- wfs_open path ;; ret (reply_code res)
  | call_create path mode => res <- wfs_create path mode ;; ret (reply_code res)
  | call_read path size offset =>
      r <- wfs_read fuel path size offset ;;
      ret (match r with
           | Some (res, data) => reply_data res data
           | None => reply_none
           end)
  | call_write path buf size offset =>
      res <- wfs_write path buf size offset ;; ret (reply_code res)
  end.

(** A session: the calls served one after the other. *)
Fixpoint serve (fuel : nat) (calls : list fuse_call) : M (list fuse_reply) :=
  match calls with
  | [] => ret []
  | c :: rest =>
      r <- wfs_oper fuel c ;;
      rs <- serve fuel rest ;;
      ret (r :: rs)
  end.

(** ** Image validation at mount time *)

Definition WFS_MAGIC0 : Z := 0x00c0ffee.
Definition WFS_MAGIC1 : Z := 0x00000000.
Definition WFS_MAGIC2 : Z := 0xf00d1350.
Definition WFS_MAGIC3 : Z := 0x0000beef.

Definition word_at (img : wfs_image_t) (off : Z) : Z :=
  le32 (content img off) (content img (off + 1))
       (content img (off + 2)) (content img (off + 3)).

(** [wfs_check_image] on a regular file: [true] for the result 0. *)
Definition wfs_check_image (img : wfs_image_t) : bool :=
  if image_size img <? wfs_get_size then false
  else negb ((negb (word_at img 0 =? WFS_MAGIC0))
             || (negb (word_at img 4 =? WFS_MAGIC1))
             || (negb (word_at img 8 =? WFS_MAGIC2))
             || (negb (word_at img 12 =? WFS_MAGIC3))).

(** ** Building images *)

Definition byte_of (x : Z) : ascii := ascii_of_N (Z.to_N (x mod 256)).

Definition bytes_le16 (x : Z) : list ascii :=
  [byte_of x; byte_of (x / 256)].
Definition bytes_le32 (x : Z) : list ascii :=
  [byte_of x; byte_of (x / 256); byte_of (x / 65536); byte_of (x / 16777216)].

(** The 64 bytes of a record with the given name, start block and
    size field. *)
Definition entry_bytes (name : string) (start size : Z) : list ascii :=
  firstn 58 (list_ascii_of_string name ++ repeat NUL 58)
  ++ bytes_le16 start ++ bytes_le32 size.

Definition magic_bytes : list ascii :=
  bytes_le32 WFS_MAGIC0 ++ bytes_le32 WFS_MAGIC1
  ++ bytes_le32 WFS_MAGIC2 ++ bytes_le32 WFS_MAGIC3.

(** A freshly formatted image: the magic, then zeros. *)
Definition empty_content : Z -> ascii := put 0 magic_bytes (fun _ => NUL).

Definition root_slot (i : Z) : Z := WFS_ENTRIES_START + i * sizeof_entry.
Definition table_slot (block : Z) : Z := WFS_BLOCK_TABLE_START + (block - 1) * 2.
Definition block_start (block : Z) : Z := WFS_DATA_START + (block - 1) * WFS_BLOCK_SIZE.

(** The world at mount: nothing read yet, unwritten storage all zero. *)
Definition mount (img : wfs_image_t) : world :=
  mk_world img [] (fun _ => NUL).

(** ** Notions the specification speaks of *)

(** The components of a path: the maximal runs without a slash. *)
Fixpoint components_from (s : string) (acc : string) : list string :=
  match s with
  | EmptyString => match acc with EmptyString => [] | _ => [acc] end
  | String c s' =>
      if Ascii.eqb c SLASH
      then match acc with
           | EmptyString => components_from s' EmptyString
           | _ => acc :: components_from s' EmptyString
           end
      else components_from s' (acc ++ String c EmptyString)
  end.

Definition components (path : string) : list string :=
  components_from path EmptyString.

(** A path at the head of the resolver's loop: at its end, or at a
    separator. *)
Definition at_separator (p : string) : Prop :=
  p = EmptyString \/ exists t, p = String SLASH t.

(** The name an entry carries: the string in its name field. *)
Definition entry_name (e : wfs_file_entry_t) : string :=
  string_of_chars (filename e).


(** The successor the allocation table of [img] records for [block]. *)
Definition successor (img : wfs_image_t) (block : Z) : Z :=
  fst (wfs_block_table_read (to_u16 (block - 1)) (mount img)).

(** The chain that starts at [block] has exactly [k] blocks before its
    end sentinel. *)
Fixpoint chain_has (img : wfs_image_t) (block : Z) (k : nat) : Prop :=
  match k with
  | O => block = WFS_BLOCK_EOF
  | S k' => block <> WFS_BLOCK_EOF /\ chain_has img (successor img block) k'
  end.

(** The reads a computation adds to the log. *)
Definition reads_of {A} (m : M A) (w : world) : list (Z * Z) :=
  skipn (List.length (reads w)) (reads (snd (m w))).

(** A computation that hands the image and the unwritten storage on as
    it found them. *)
Definition read_only {A} (m : M A) : Prop :=
  forall w, image (snd (m w)) = image w
            /\ indeterminate (snd (m w)) = indeterminate w.

(** The catalog operations as the driver implements them. *)
Definition listEntries (dir : wfs_file_entry_t) : M (list string) :=
  '(_, _, names) <-
    wfs_file_entry_operation (Some dir) WFS_FILE_ENTRY_OP_CALLBACK
      zero_entry wfs_readdir_callback [] ;;
  ret names.

Definition name_field (name : string) : list ascii :=
  firstn 58 (list_ascii_of_string name ++ repeat NUL 58).

Definition findEntry (dir : wfs_file_entry_t) (name : string)
    : M (option wfs_file_entry_t) :=
  '(r, found, _) <-
    wfs_file_entry_operation (Some dir) WFS_FILE_ENTRY_OP_FIND
      (mk_entry (name_field name) 0 0) (fun _ d => d) tt ;;
  ret (if 0 <? r then Some found else None).

(** The slots of the window the scan walks: [n] records from
    [entrystart] on. *)
Definition slot_read (entrystart : Z) (i : nat) : Z * Z :=
  (entrystart + Z.of_nat i * sizeof_entry, sizeof_entry).

Definition window (entrystart : Z) (n : nat) : list (Z * Z) :=
  map (slot_read entrystart) (seq 0 n).

(** Where the scan of [parent] starts. *)
Definition scan_start (parent : wfs_file_entry_t) : Z :=
  if negb (wfs_file_entry_is_empty parent)
  then to_int (wfs_get_block_offset (start_block parent - 1))
  else WFS_ENTRIES_START.

(** ** Images used below *)

Open Scope string_scope.

(** A directory "d" whose chain is the single block 1; block 2, next
    to it on disk, belongs to nobody and holds a record "ghost". *)
Definition dir_d : wfs_file_entry_t :=
  entry_of_bytes (entry_bytes "d" 1 WFS_SIZE_IS_DIRECTORY).

Definition image_one_block_dir : wfs_image_t :=
  mk_image wfs_get_size
    (put (root_slot 0) (entry_bytes "d" 1 WFS_SIZE_IS_DIRECTORY)
    (put (table_slot 1) (bytes_le16 WFS_BLOCK_EOF)
    (put (block_start 1) (entry_bytes "a.txt" 3 5)
    (put (table_slot 3) (bytes_le16 WFS_BLOCK_EOF)
    (put (block_start 2) (entry_bytes "ghost" 9 0)
     empty_content))))).

(** Root slots 15 and 16 in use: files "in" and "late". *)
Definition image_late_root_entry : wfs_image_t :=
  mk_image wfs_get_size
    (put (root_slot 15) (entry_bytes "in" 2 0)
    (put (table_slot 2) (bytes_le16 WFS_BLOCK_EOF)
    (put (root_slot 16) (entry_bytes "late" 1 0)
    (put (table_slot 1) (bytes_le16 WFS_BLOCK_EOF)
     empty_content)))).

(** A regular file "f" of 64 bytes in block 1 whose content happens to
    read as a record named "x". *)
Definition image_file_as_dir : wfs_image_t :=
  mk_image wfs_get_size
    (put (root_slot 0) (entry_bytes "f" 1 64)
    (put (table_slot 1) (bytes_le16 WFS_BLOCK_EOF)
    (put (block_start 1) (entry_bytes "x" 2 7)
     empty_content))).

(** A regular file "f" of exactly one block: 512 bytes in block 1. *)
Definition image_one_block_file : wfs_image_t :=
  mk_image wfs_get_size
    (put (root_slot 0) (entry_bytes "f" 1 512)
    (put (table_slot 1) (bytes_le16 WFS_BLOCK_EOF)
     empty_content)).


Definition name56 : string :=
  "bbbbbbbbbbbbbbbbbbbbbbbbbbbbbbbbbbbbbbbbbbbbbbbbbbbbbbbb".

(** Root slot 0 holds a file whose name has 56 characters. *)
Definition image_long_name : wfs_image_t :=
  mk_image wfs_get_size
    (put (root_slot 0) (entry_bytes name56 1 3)
    (put (table_slot 1) (bytes_le16 WFS_BLOCK_EOF)
     empty_content)).

Close Scope string_scope.

(** ** Further notions *)

(** Two worlds a call cannot tell apart: the same image and the same
    unwritten storage; the logs of reads may differ. *)
Definition same_image (w1 w2 : world) : Prop :=
  image w1 = image w2 /\ indeterminate w1 = indeterminate w2.

(** A computation whose result does not depend on what was read
    before. *)
Definition history_free {A} (m : M A) : Prop :=
  forall w1 w2, same_image w1 w2 ->
    fst (m w1) = fst (m w2) /\ same_image (snd (m w1)) (snd (m w2)).

(** The record the scan finds in [tmp_entry] after its read at [off]. *)
Definition slot_entry (w : world) (off : Z) : wfs_file_entry_t :=
  entry_of_bytes
    (overlay (snd (fst (pread sizeof_entry off w)))
             (map (indeterminate w) (seq 0 64))).

(** The records of the slots [idxs] of the table at [entrystart]. *)
Definition slots_at (w : world) (entrystart : Z) (idxs : list nat)
    : list wfs_file_entry_t :=
  map (fun i => slot_entry w (entrystart + Z.of_nat i * sizeof_entry)) idxs.

(** The records a scan of [parent] walks over. *)
Definition scan_slots (w : world) (parent : wfs_file_entry_t)
    : list wfs_file_entry_t :=
  slots_at w (scan_start parent) (seq 0 aantalfiles).

Definition in_use (e : wfs_file_entry_t) : bool :=
  negb (wfs_file_entry_is_empty e).

(** The test of the find operation on a record [e] of the table. *)
Definition find_hit (entry e : wfs_file_entry_t) : bool :=
  in_use e
  && strncmp_eq (filename e) (filename entry) (Z.to_nat WFS_FILENAME_SIZE).

(** One step of a resolution by components: the name of [c] looked up
    in [current]. [None] is a failed resolution. *)
Definition lookup_component (current : wfs_file_entry_t) (c : string)
    : M (option wfs_file_entry_t) :=
  let len := Z.of_nat (String.length c) + 1 in
  if len >=? WFS_FILENAME_SIZE - 1 then ret None
  else
    let sought := mk_entry (component_name c len) 0 0 in
    if negb (is_nul (nth 0 (filename sought) NUL)) then
      '(r, found, _) <-
        wfs_file_entry_operation (Some current) WFS_FILE_ENTRY_OP_FIND
          sought (fun _ d => d) tt ;;
      ret (if r <=? 0 then None else Some found)
    else ret (Some sought).

(** A resolution by components: each one looked up in the entry the
    one before resolved to. *)
Fixpoint resolve_components (cs : list string) (current : wfs_file_entry_t)
    : M (option wfs_file_entry_t) :=
  match cs with
  | [] => ret (Some current)
  | c :: cs' =>
      r <- lookup_component current c ;;
      match r with
      | None => ret None
      | Some e => resolve_components cs' e
      end
  end.

(** A path that is a C string and begins at the root. *)
Definition absolute (path : string) : Prop :=
  c_str path = path /\ exists t, path = String SLASH t.

(** The [j]-th block of the chain that starts at [start], as the
    allocation table of [img] links it. *)
Definition chain_block (img : wfs_image_t) (start : Z) (j : nat) : Z :=
  Nat.iter j (successor img) start.

(** The byte of the image that holds byte [i] of the file [e]: in the
    block of the chain that [i] falls into, at [i]'s place in it. *)
Definition file_byte (img : wfs_image_t) (e : wfs_file_entry_t) (i : Z) : ascii :=
  content img
    (wfs_get_block_offset
       (chain_block img (start_block e) (Z.to_nat (i / WFS_BLOCK_SIZE)) - 1)
     + i mod WFS_BLOCK_SIZE).

(** The [n] bytes of the file from [off] on. *)
Definition file_bytes (img : wfs_image_t) (e : wfs_file_entry_t) (off : Z)
    (n : nat) : list ascii :=
  map (fun k => file_byte img e (off + Z.of_nat k)) (seq 0 n).

(** A regular file "g" of 600 bytes in two blocks, 3 and then 7, whose
    byte 511 is [A] and byte 512 is [B]. *)
Definition image_two_block_file : wfs_image_t :=
  mk_image wfs_get_size
    (put (root_slot 0) (entry_bytes "g"%string 3 600)
    (put (table_slot 3) (bytes_le16 7)
    (put (table_slot 7) (bytes_le16 WFS_BLOCK_EOF)
    (put (block_start 3 + 511) ["A"%char]
    (put (block_start 7) ["B"%char]
     empty_content))))).

(** * Properties *)

(** ** The monad *)

Lemma bind_run {A B} (m : M A) (k : A -> M B) (w : world) :
  bind m k w = k (fst (m w)) (snd (m w)).
Proof. unfold bind. destruct (m w); reflexivity. Qed.

Lemma bind_uninitialised {B} n (k : list ascii -> M B) (w : world) :
  bind (uninitialised n) k w = k (map (indeterminate w) (seq 0 n)) w.
Proof. reflexivity. Qed.

(** ** No callback stores to the image *)

Lemma read_only_ret {A} (a : A) : read_only (ret a).
Proof. intros w; split; reflexivity. Qed.

Lemma read_only_bind {A B} (m : M A) (k : A -> M B) :
  read_only m -> (forall a, read_only (k a)) -> read_only (bind m k).
Proof.
  intros Hm Hk w. rewrite bind_run.
  destruct (Hk (fst (m w)) (snd (m w))) as [H1 H2].
  destruct (Hm w) as [H3 H4].
  split; congruence.
Qed.

Lemma read_only_pread count offset : read_only (pread count offset).
Proof. intros w; unfold pread; destruct (offset <? 0); split; reflexivity. Qed.

Lemma read_only_uninitialised n : read_only (uninitialised n).
Proof. intros w; split; reflexivity. Qed.

(** A store does change the image: being read-only says something. *)
Lemma pwrite_is_not_read_only : ~ read_only (pwrite ["x"%char] 0).
Proof.
  intros H.
  destruct (H (mount (mk_image 1 (fun _ => NUL)))) as [Himg _].
  apply (f_equal (fun img => content img 0)) in Himg.
  vm_compute in Himg. discriminate Himg.
Qed.

Create HintDb wfs_ro.
#[local] Hint Resolve read_only_ret read_only_pread read_only_uninitialised : wfs_ro.

(** Walks a monadic term: binds, branches and the primitives. *)
Ltac read_only_step :=
  match goal with
  | |- read_only (bind _ _) => apply read_only_bind; [ | intros ]
  | |- read_only (match ?x with _ => _ end) => destruct x
  | |- read_only (ret _) => apply read_only_ret
  | |- read_only _ => solve [ eauto with wfs_ro ]
  end.
Ltac read_only_tac := repeat read_only_step.

Lemma read_only_block_table_read idx : read_only (wfs_block_table_read idx).
Proof. unfold wfs_block_table_read. read_only_tac. Qed.
#[local] Hint Resolve read_only_block_table_read : wfs_ro.

Lemma read_only_current_block_loop fuel :
  forall off o block, read_only (current_block_loop fuel off o block).
Proof.
  induction fuel as [|fuel IH]; intros; cbn [current_block_loop]; read_only_tac.
Qed.
#[local] Hint Resolve read_only_current_block_loop : wfs_ro.

Lemma read_only_get_current_block entry off bp :
  read_only (wfs_get_current_block entry off bp).
Proof. unfold wfs_get_current_block. read_only_tac. Qed.

Lemma read_only_get_next_block block : read_only (wfs_get_next_block block).
Proof. unfold wfs_get_next_block. read_only_tac. Qed.
#[local] Hint Resolve read_only_get_current_block read_only_get_next_block : wfs_ro.

Lemma read_only_entry_loop {D} op (cb : wfs_file_entry_t -> D -> D) start idxs :
  forall count entry data, read_only (entry_loop op cb start idxs count entry data).
Proof.
  induction idxs as [|i rest IH]; intros; cbn [entry_loop]; read_only_tac.
Qed.
#[local] Hint Resolve @read_only_entry_loop : wfs_ro.

Lemma read_only_entry_operation {D} parent op entry
    (cb : wfs_file_entry_t -> D -> D) data :
  read_only (wfs_file_entry_operation parent op entry cb data).
Proof. unfold wfs_file_entry_operation. read_only_tac. Qed.
#[local] Hint Resolve @read_only_entry_operation : wfs_ro.

Lemma read_only_find_loop fuel :
  forall path cur, read_only (find_loop fuel path cur).
Proof.
  induction fuel as [|fuel IH]; intros; cbn [find_loop]; read_only_tac.
Qed.
#[local] Hint Resolve read_only_find_loop : wfs_ro.

Lemma read_only_find_entry path : read_only (wfs_find_entry path).
Proof. unfold wfs_find_entry. read_only_tac. Qed.
#[local] Hint Resolve read_only_find_entry : wfs_ro.

Lemma read_only_get_parent_entry path parent :
  read_only (wfs_get_parent_entry path parent).
Proof. unfold wfs_get_parent_entry. read_only_tac. Qed.
#[local] Hint Resolve read_only_get_parent_entry : wfs_ro.

Lemma read_only_read_loop fuel :
  forall size block bp read buf, read_only (read_loop fuel size block bp read buf).
Proof.
  induction fuel as [|fuel IH]; intros; cbn [read_loop]; read_only_tac.
Qed.
#[local] Hint Resolve read_only_read_loop : wfs_ro.

Lemma read_only_oper fuel c : read_only (wfs_oper fuel c).
Proof.
  destruct c; unfold wfs_oper, wfs_readdir, wfs_mkdir, wfs_rmdir, wfs_getattr,
    wfs_open, wfs_create, wfs_read, wfs_write; read_only_tac.
Qed.

(** C9. Whatever calls FUSE makes through the callback table, in
    whatever order, the image behind the descriptor is afterwards the
    image it was before: the driver only ever reads it. *)
Theorem serve_leaves_image_unchanged :
  forall (fuel : nat) (calls : list fuse_call) (w : world),
    image (snd (serve fuel calls w)) = image w.
Proof.
  intros fuel calls.
  assert (H : read_only (serve fuel calls)).
  { induction calls as [|c rest IH]; simpl.
    - apply read_only_ret.
    - apply read_only_bind; [apply read_only_oper | intros r].
      apply read_only_bind; [exact IH | intros rs; apply read_only_ret]. }
  intros w. apply H.
Qed.

(** ** What the entry scan reads *)

Lemma pread_reads count offset w :
  reads (snd (pread count offset w)) = reads w ++ [(offset, count)].
Proof. unfold pread. destruct (offset <? 0); reflexivity. Qed.

Lemma reads_of_app {A} (m : M A) w l :
  reads (snd (m w)) = reads w ++ l -> reads_of m w = l.
Proof.
  intros H. unfold reads_of. rewrite H.
  rewrite skipn_app, skipn_all, Nat.sub_diag. reflexivity.
Qed.

Section ScanReads.
Context {D : Type}.
Variable op : wfs_file_entry_op_t.
Variable callback : wfs_file_entry_t -> D -> D.
Variable entrystart : Z.

(** The loop reads the slots in order and stops early only on a
    match of the find operation. *)
Lemma entry_loop_reads :
  forall n s count entry data w,
  exists m, (m <= n)%nat
    /\ reads (snd (entry_loop op callback entrystart (seq s n) count entry data w))
       = reads w ++ map (slot_read entrystart) (seq s m)
    /\ (is_find op = false -> m = n).
Proof.
  induction n as [|n IH]; intros s count entry data w.
  - exists O. cbn. rewrite app_nil_r. auto.
  - cbn [seq entry_loop]. rewrite bind_uninitialised, bind_run.
    pose proof (pread_reads sizeof_entry (entrystart + Z.of_nat s * sizeof_entry) w) as Hr.
    destruct (pread sizeof_entry (entrystart + Z.of_nat s * sizeof_entry) w)
      as [[r got] w1].
    cbn [fst snd] in *.
    set (tmp := entry_of_bytes _).
    assert (Hrec : forall count entry data,
               exists m, (m <= S n)%nat
                 /\ reads (snd (entry_loop op callback entrystart (seq (S s) n)
                                  count entry data w1))
                    = reads w ++ map (slot_read entrystart) (seq s m)
                 /\ (is_find op = false -> m = S n)).
    { intros c e d. destruct (IH (S s) c e d w1) as (m & Hm & Hreads & Hall).
      exists (S m). split; [lia|]. split.
      - rewrite Hreads, Hr. cbn [seq map]. rewrite <- app_assoc. reflexivity.
      - intros Hf. rewrite (Hall Hf). reflexivity. }
    destruct op; cbn [is_find] in *; try apply Hrec.
    destruct (wfs_file_entry_is_empty tmp); [apply Hrec|].
    destruct (strncmp_eq _ _ _); [|apply Hrec].
    exists 1%nat. split; [lia|]. split; [|discriminate].
    cbn [ret snd seq map]. exact Hr.
Qed.
End ScanReads.

(** The operation as a whole reads a prefix of the 16-slot window at
    [scan_start], all of it unless it is a find. *)
Lemma entry_operation_reads {D} parent op entry
    (cb : wfs_file_entry_t -> D -> D) data w :
  exists m, (m <= aantalfiles)%nat
    /\ reads_of (wfs_file_entry_operation (Some parent) op entry cb data) w
       = window (scan_start parent) m
    /\ (is_find op = false -> m = aantalfiles).
Proof.
  unfold wfs_file_entry_operation. fold (scan_start parent).
  destruct (is_find op && is_nul (nth 0 (filename entry) NUL)) eqn:Hguard.
  - exists O. split; [lia|]. split.
    + apply reads_of_app. cbn. rewrite app_nil_r. reflexivity.
    + intros Hf. rewrite Hf in Hguard. discriminate.
  - destruct (entry_loop_reads op cb (scan_start parent) aantalfiles 0 0 entry data w)
      as (m & Hm & Hreads & Hall).
    exists m. split; [exact Hm|]. split; [|exact Hall].
    apply reads_of_app. exact Hreads.
Qed.





(** ** The root table *)

(** Whatever the operation, a scan of the root reads a prefix of the
    first 16 of the table's 64 slots. *)
Lemma root_scan_window {D} op entry (cb : wfs_file_entry_t -> D -> D) data w :
  exists m, (m <= 16)%nat
    /\ reads_of (wfs_file_entry_operation (Some zero_entry) op entry cb data) w
       = window (root_slot 0) m
    /\ (is_find op = false -> m = 16%nat).
Proof. exact (entry_operation_reads zero_entry op entry cb data w). Qed.

(** C2. The root table of [image_late_root_entry] holds a file "late"
    in slot 16 of its 64 slots. The scan stops after slot 15: the
    lookup does not find the file, the path does not resolve, and the
    listing shows "in" (slot 15) alone. *)
Theorem root_scan_stops_at_slot_16 :
  let img := image_late_root_entry in
  let slot16 := entry_of_bytes (image_bytes img (root_slot 16) sizeof_entry) in
  wfs_check_image img = true
  /\ wfs_file_entry_is_empty slot16 = false
  /\ entry_name slot16 = "late"%string
  /\ fst (findEntry zero_entry "late" (mount img)) = None
  /\ fst (wfs_find_entry "/late" (mount img)) = None
  /\ fst (wfs_readdir "/" [] (mount img)) = (0, ["."; ".."; "in"]%string)
  /\ reads_of (listEntries zero_entry) (mount img) = window (root_slot 0) 16.
Proof. vm_compute. repeat split; reflexivity. Qed.

(** ** Regular files in the middle of a path *)

(** C3. In [image_file_as_dir] "f" is a regular file, not a directory.
    Resolving "/f/x" nevertheless succeeds: the resolver reads the
    file's data block as a table of records and returns the record it
    finds there. *)
Theorem resolver_descends_into_regular_file :
  let w := mount image_file_as_dir in
  wfs_check_image image_file_as_dir = true
  /\ option_map wfs_file_entry_is_directory (fst (wfs_find_entry "/f" w)) = Some false
  /\ option_map wfs_file_entry_is_empty (fst (wfs_find_entry "/f" w)) = Some false
  /\ fst (wfs_find_entry "/f/x" w) = Some (entry_of_bytes (entry_bytes "x" 2 7))
  /\ fst (wfs_getattr "/f/x" w) = (0, mk_stat (Z.lor S_IFREG 292) 1 7)
  /\ In (block_start 1, sizeof_entry) (reads_of (wfs_find_entry "/f/x") w).
Proof.
  vm_compute. repeat split; try reflexivity.
  right. left. reflexivity.
Qed.

(** ** Writing *)



(** ** The successor of a block *)

(** What [wfs_get_next_block] does right: the end sentinel and every
    block number above 16384 give the sentinel without a read, and a
    block in 1..16384 reads its own table slot. *)
Lemma next_block_rejects_high_blocks block w :
  block = WFS_BLOCK_EOF \/ WFS_N_BLOCKS < block ->
  wfs_get_next_block block w = (WFS_BLOCK_EOF, w).
Proof.
  intros H. unfold wfs_get_next_block.
  destruct (block =? WFS_BLOCK_EOF) eqn:E.
  - apply Z.eqb_eq in E. subst. reflexivity.
  - destruct H as [H | H]; [apply Z.eqb_neq in E; contradiction|].
    destruct (block - 1 >=? WFS_N_BLOCKS) eqn:G; [reflexivity|].
    rewrite Z.geb_leb in G. apply Z.leb_gt in G. lia.
Qed.

Lemma next_block_reads_own_slot block w :
  1 <= block <= WFS_N_BLOCKS ->
  wfs_get_next_block block w = wfs_block_table_read (block - 1) w
  /\ reads_of (wfs_get_next_block block) w = [(table_slot block, 2)].
Proof.
  intros H. unfold WFS_N_BLOCKS in H.
  assert (E : wfs_get_next_block block w = wfs_block_table_read (block - 1) w).
  { unfold wfs_get_next_block.
    replace (block =? WFS_BLOCK_EOF) with false
      by (symmetry; apply Z.eqb_neq; unfold WFS_BLOCK_EOF; lia).
    replace (block - 1 >=? WFS_N_BLOCKS) with false
      by (symmetry; rewrite Z.geb_leb; apply Z.leb_gt; unfold WFS_N_BLOCKS; lia).
    unfold to_u16. rewrite Z.mod_small by lia. reflexivity. }
  split; [exact E|].
  apply reads_of_app. rewrite E.
  unfold wfs_block_table_read. rewrite bind_run.
  pose proof (pread_reads 2 (to_u32 (WFS_BLOCK_TABLE_START + (block - 1) * 2)) w) as Hr.
  destruct (pread 2 _ w) as [[r got] w1]. cbn [fst snd ret] in *.
  rewrite Hr. unfold table_slot, to_u32.
  change WFS_BLOCK_TABLE_START with 4112.
  rewrite Z.mod_small by lia. reflexivity.
Qed.

(** Block 0 is neither: it is looked up in slot 65535 of a table of
    16384 slots. *)
Lemma next_block_of_zero w :
  wfs_get_next_block 0 w = wfs_block_table_read 65535 w.
Proof. reflexivity. Qed.


(** ** Reading at the end of a file *)

(** The part of C5 that holds: an offset beyond the recorded size is
    refused with EINVAL. *)
Lemma read_beyond_size_is_invalid fuel path size offset w e w1 :
  wfs_find_entry path w = (Some e, w1) ->
  wfs_file_entry_get_size e < offset < 2 ^ 63 ->
  fst (wfs_read fuel path size offset w) = Some (- EINVAL, []).
Proof.
  intros Hf Ho. unfold wfs_read. rewrite bind_run, Hf. cbn [fst snd].
  assert (0 <= wfs_file_entry_get_size e).
  { unfold wfs_file_entry_get_size. apply Z.land_nonneg. right.
    unfold WFS_SIZE_MASK. lia. }
  unfold to_u64. rewrite Z.mod_small by lia.
  replace (offset >? wfs_file_entry_get_size e) with true
    by (symmetry; apply Z.gtb_lt; lia).
  reflexivity.
Qed.

(** A table read sees the image only. *)
Lemma block_table_read_image idx w :
  fst (wfs_block_table_read idx w)
  = fst (wfs_block_table_read idx (mount (image w))).
Proof.
  unfold wfs_block_table_read, bind, pread.
  destruct (to_u32 (WFS_BLOCK_TABLE_START + idx * 2) <? 0); reflexivity.
Qed.

(** With a chain of exactly [k + 1] blocks and an offset [k + 1] blocks
    or more ahead, the search for the block of the offset runs into the
    end sentinel. *)
Lemma current_block_loop_off_chain k :
  forall fuel off o block w,
    chain_has (image w) block (S k) ->
    o + WFS_BLOCK_SIZE * (Z.of_nat k + 1) <= off ->
    (k < fuel)%nat ->
    fst (current_block_loop fuel off o block w) = inl WFS_BLOCK_EOF.
Proof.
  unfold WFS_BLOCK_SIZE.
  induction k as [|k IH]; intros fuel off o block w Hchain Hoff Hfuel;
    (destruct fuel as [|fuel]; [lia|]); cbn [current_block_loop];
    unfold WFS_BLOCK_SIZE;
    (replace (off >=? o + 512) with true
       by (symmetry; rewrite Z.geb_leb; apply Z.leb_le; lia));
    rewrite bind_run;
    pose proof (block_table_read_image (to_u16 (block - 1)) w) as Hnext;
    pose proof (read_only_block_table_read (to_u16 (block - 1)) w) as [Himg _];
    destruct (wfs_block_table_read (to_u16 (block - 1)) w) as [nb w1];
    cbn [fst snd] in *; fold (successor (image w) block) in Hnext; subst nb;
    cbn [chain_has] in Hchain; destruct Hchain as [_ Hchain].
  - rewrite Hchain. reflexivity.
  - destruct Hchain as [Hne Hrest].
    replace (successor (image w) block =? WFS_BLOCK_EOF) with false
      by (symmetry; apply Z.eqb_neq; exact Hne).
    apply IH; [| lia | lia].
    rewrite Himg. split; assumption.
Qed.

(** The extent of the defect behind C5: whenever the recorded size is
    a positive multiple of the block size and the chain has exactly the
    blocks the data needs, the read at the recorded size fails. *)
Lemma read_at_size_fails_on_exact_chains fuel path size w e k :
  fst (wfs_find_entry path w) = Some e ->
  wfs_file_entry_get_size e = WFS_BLOCK_SIZE * Z.of_nat (S k) ->
  chain_has (image w) (start_block e) (S k) ->
  fst (wfs_read fuel path size (wfs_file_entry_get_size e) w) = Some (- EIO, []).
Proof.
  intros Hfind Hsize Hchain. unfold wfs_read. rewrite bind_run, Hfind.
  pose proof (read_only_find_entry path w) as [Himg _].
  destruct (wfs_find_entry path w) as [r w1]. cbn [fst snd] in *.
  assert (Hcs : 0 <= wfs_file_entry_get_size e < 2 ^ 28).
  { unfold wfs_file_entry_get_size.
    change WFS_SIZE_MASK with (Z.ones 28).
    rewrite Z.land_ones by lia. apply Z.mod_pos_bound. lia. }
  rewrite Hsize in *. unfold WFS_BLOCK_SIZE in *.
  unfold to_u64. rewrite Z.mod_small by lia.
  replace (512 * Z.of_nat (S k) >? 512 * Z.of_nat (S k)) with false
    by (symmetry; rewrite Z.gtb_ltb; apply Z.ltb_ge; lia).
  rewrite bind_uninitialised, bind_run.
  unfold wfs_get_current_block at 1 2.
  assert (Hstart : start_block e <> WFS_BLOCK_EOF) by (destruct Hchain; assumption).
  replace (start_block e =? WFS_BLOCK_EOF) with false
    by (symmetry; apply Z.eqb_neq; exact Hstart).
  rewrite !bind_run.
  rewrite (current_block_loop_off_chain k);
    [| rewrite Himg; exact Hchain
     | unfold WFS_BLOCK_SIZE; lia
     | unfold WFS_BLOCK_SIZE;
       replace (512 * Z.of_nat (S k) / 512) with (Z.of_nat (S k))
         by (rewrite Z.mul_comm, Z.div_mul; lia);
       lia].
  reflexivity.
Qed.

(** C5. The file "f" of [image_one_block_file] has 512 bytes and the
    one block they need. A read at offset 512, the recorded size, is
    answered with EIO instead of zero bytes: the search for the block
    that holds offset 512 steps off the end of the chain. *)
Theorem read_at_size_of_full_block_file :
  forall fuel : nat,
    let w := mount image_one_block_file in
    wfs_check_image image_one_block_file = true
    /\ option_map wfs_file_entry_get_size (fst (wfs_find_entry "/f" w)) = Some 512
    /\ option_map start_block (fst (wfs_find_entry "/f" w)) = Some 1
    /\ fst (wfs_get_next_block 1 w) = WFS_BLOCK_EOF
    /\ fst (wfs_read fuel "/f" 10 512 w) = Some (- EIO, []).
Proof. intros fuel. vm_compute. repeat split; reflexivity. Qed.

(** ** Reads stay within the recorded size *)

Lemma image_bytes_length img off n :
  Z.of_nat (List.length (image_bytes img off n)) = Z.max 0 (Z.min n (image_size img - off)).
Proof.
  unfold image_bytes. rewrite length_map, length_seq. lia.
Qed.

(** A read at a valid offset delivers at most what was asked for. *)
Lemma pread_count count offset w n got w' :
  pread count offset w = ((n, got), w') ->
  0 <= offset -> 0 <= count ->
  0 <= n <= count /\ n = Z.of_nat (List.length got).
Proof.
  unfold pread. intros H Ho Hc.
  replace (offset <? 0) with false in H by (symmetry; apply Z.ltb_ge; lia).
  inversion H; subst; clear H.
  rewrite image_bytes_length. split; [lia | reflexivity].
Qed.

(** The loop of [wfs_get_current_block] leaves with [o] the start of
    the block that holds [off]; an early return carries the end
    sentinel. *)
Lemma current_block_loop_exit fuel :
  forall off o block w res w',
    o <= off < o + WFS_BLOCK_SIZE * (Z.of_nat fuel + 1) ->
    current_block_loop fuel off o block w = (res, w') ->
    match res with
    | inl b => b = WFS_BLOCK_EOF
    | inr (_, o') => o' <= off < o' + WFS_BLOCK_SIZE
    end.
Proof.
  unfold WFS_BLOCK_SIZE.
  induction fuel as [|fuel IH]; intros off o block w res w' Hinv H;
    cbn [current_block_loop] in H; unfold WFS_BLOCK_SIZE in H.
  - inversion H; subst. lia.
  - destruct (off >=? o + 512) eqn:C.
    + rewrite Z.geb_leb in C. apply Z.leb_le in C.
      rewrite bind_run in H.
      destruct (wfs_block_table_read (to_u16 (block - 1)) w) as [b w1].
      cbn [fst snd] in H.
      destruct (b =? WFS_BLOCK_EOF) eqn:E.
      * inversion H; subst. apply Z.eqb_eq in E. exact E.
      * eapply IH; [|exact H]. lia.
    + rewrite Z.geb_leb in C. apply Z.leb_gt in C.
      inversion H; subst. lia.
Qed.

Lemma get_current_block_position entry off bp0 w block bp w' :
  wfs_get_current_block entry off bp0 w = ((block, bp), w') ->
  0 <= off ->
  block <> WFS_BLOCK_EOF ->
  0 <= bp < WFS_BLOCK_SIZE.
Proof.
  unfold wfs_get_current_block. intros H Hoff Hb.
  destruct (start_block entry =? WFS_BLOCK_EOF) eqn:E.
  - inversion H; subst. apply Z.eqb_eq in E. contradiction.
  - rewrite bind_run in H.
    destruct (current_block_loop _ off 0 (start_block entry) w) as [res w1] eqn:L.
    apply current_block_loop_exit in L.
    + cbn [fst snd] in H. destruct res as [b | [b o]].
      * inversion H; subst. contradiction.
      * inversion H; subst. unfold WFS_BLOCK_SIZE in *.
        unfold to_u16. rewrite Z.mod_small by lia. lia.
    + unfold WFS_BLOCK_SIZE. rewrite Z2Nat.id by (apply Z.div_pos; lia).
      pose proof (Z.mod_pos_bound off 512 ltac:(lia)).
      pose proof (Z.div_mod off 512 ltac:(lia)). lia.
Qed.

Lemma block_offset_nonneg block : 0 <= wfs_get_block_offset block.
Proof.
  unfold wfs_get_block_offset, to_u32. apply Z.mod_pos_bound. lia.
Qed.

(** The loop of [wfs_read] hands back at most what is left to read. *)
Lemma read_loop_bound fuel :
  forall size block bp read buf w r data w',
    0 <= size -> 0 <= read -> read + size < 2 ^ 31 ->
    0 <= bp < WFS_BLOCK_SIZE ->
    read_loop fuel size block bp read buf w = (Some (r, data), w') ->
    r <= read + size.
Proof.
  unfold WFS_BLOCK_SIZE.
  induction fuel as [|fuel IH];
    intros size block bp read buf w r data w' Hs Hr Hsum Hbp H;
    cbn [read_loop] in H;
    destruct ((0 <? size) && (WFS_BLOCK_FREE <? block) && (block <=? WFS_BLOCK_EOF))
      eqn:C;
    try (inversion H; subst; lia).
  apply andb_prop in C. destruct C as [C _].
  apply andb_prop in C. destruct C as [C _]. apply Z.ltb_lt in C.
  unfold WFS_BLOCK_SIZE, to_u16 in H.
  rewrite (Z.mod_small 512) in H by lia.
  rewrite (Z.mod_small (512 - bp)) in H by lia.
  set (t0 := if bp =? 0 then 512 else 512 - bp) in H.
  assert (Ht0 : 0 < t0 <= 512) by (subst t0; destruct (bp =? 0); lia).
  set (t1 := if t0 >? size then size mod 2 ^ 16 else t0) in H.
  assert (Ht1 : 0 < t1 <= size /\ t1 <= 512).
  { subst t1. destruct (t0 >? size) eqn:G.
    - apply Z.gtb_lt in G. rewrite Z.mod_small by lia. lia.
    - rewrite Z.gtb_ltb in G. apply Z.ltb_ge in G. lia. }
  rewrite bind_run in H.
  destruct (pread t1 (wfs_get_block_offset (block - 1) + bp) w)
    as [[n got] w1] eqn:P.
  apply pread_count in P;
    [| pose proof (block_offset_nonneg (block - 1)); lia | lia].
  destruct P as [Hn _]. cbn [fst snd] in H.
  rewrite (Z.mod_small n) in H by lia.
  unfold to_u64, to_int in H.
  rewrite (Z.mod_small (size - n)) in H by lia.
  rewrite (Z.mod_small (read + n + 2 ^ 31)) in H by lia.
  replace (read + n + 2 ^ 31 - 2 ^ 31) with (read + n) in H by lia.
  destruct (0 <? size - n) eqn:More.
  - rewrite bind_run in H.
    destruct (wfs_get_next_block (block mod 2 ^ 16) w1) as [nb w2].
    cbn [fst snd] in H.
    destruct ((nb =? WFS_BLOCK_FREE) || (nb >=? WFS_BLOCK_EOF)).
    + inversion H; subst. unfold EIO. lia.
    + apply IH in H; lia.
  - apply IH in H; lia.
Qed.

(** C6. A read that succeeds returns no more bytes than lie between
    the offset and the recorded size of the file the path resolves to
    (and no more than were asked for). [size] is the length of a
    buffer, so it stays below 2^63; [offset] is any [off_t]. *)
Theorem read_stays_within_recorded_size :
  forall (fuel : nat) (path : string) (size offset : Z) (w : world)
         (e : wfs_file_entry_t) (r : Z) (data : list ascii) (w' : world),
    0 <= size < 2 ^ 63 ->
    - 2 ^ 63 <= offset < 2 ^ 63 ->
    fst (wfs_find_entry path w) = Some e ->
    wfs_read fuel path size offset w = (Some (r, data), w') ->
    0 <= r ->
    r <= wfs_file_entry_get_size e - offset /\ r <= size.
Proof.
  intros fuel path size offset w e r data w' Hsize Hoff Hfind H Hr.
  unfold wfs_read in H. rewrite bind_run, Hfind in H.
  assert (Hcs : 0 <= wfs_file_entry_get_size e < 2 ^ 28).
  { unfold wfs_file_entry_get_size.
    change WFS_SIZE_MASK with (Z.ones 28).
    rewrite Z.land_ones by lia. apply Z.mod_pos_bound. lia. }
  set (cs := wfs_file_entry_get_size e) in *.
  destruct (to_u64 offset >? cs) eqn:G.
  { inversion H; subst. unfold EINVAL in Hr. lia. }
  rewrite Z.gtb_ltb in G. apply Z.ltb_ge in G.
  assert (Hoff' : 0 <= offset <= cs).
  { unfold to_u64 in G. destruct (Z_lt_dec offset 0) as [Hneg|Hpos].
    - replace offset with (offset + 2 ^ 64 + (-1) * 2 ^ 64) in G by lia.
      rewrite Z.mod_add, Z.mod_small in G; lia.
    - rewrite Z.mod_small in G; lia. }
  rewrite bind_uninitialised, bind_run in H.
  destruct (wfs_get_current_block e offset _ (snd (wfs_find_entry path w)))
    as [[block bp] w2] eqn:B.
  cbn [fst snd] in H.
  destruct (block >=? WFS_BLOCK_EOF) eqn:E.
  { inversion H; subst. unfold EIO in Hr. lia. }
  rewrite Z.geb_leb in E. apply Z.leb_gt in E.
  apply get_current_block_position in B; [| lia | lia].
  unfold to_u64 in H.
  rewrite (Z.mod_small (offset + size)) in H by lia.
  rewrite (Z.mod_small (cs - offset)) in H by lia.
  destruct (offset + size >? cs) eqn:Clamp.
  - apply read_loop_bound in H; lia.
  - rewrite Z.gtb_ltb in Clamp. apply Z.ltb_ge in Clamp.
    apply read_loop_bound in H; lia.
Qed.

Lemma read_stays_within_recorded_size_witness :
  let w := mount image_one_block_file in
  let e := entry_of_bytes (entry_bytes "f" 1 512) in
  0 <= 1000 < 2 ^ 63
  /\ - 2 ^ 63 <= 500 < 2 ^ 63
  /\ fst (wfs_find_entry "/f" w) = Some e
  /\ option_map fst (fst (wfs_read 4 "/f" 1000 500 w)) = Some 12
  /\ 12 <= wfs_file_entry_get_size e - 500 /\ 12 <= 1000.
Proof.
  cbv zeta.
  split; [lia|]. split; [lia|]. split; [vm_compute; reflexivity|].
  split; [vm_compute; reflexivity|].
  destruct (wfs_read 4 "/f" 1000 500 (mount image_one_block_file))
    as [[[r data]|] w'] eqn:R.
  - assert (Er : r = 12).
    { assert (Hv : option_map fst (fst (wfs_read 4 "/f" 1000 500 (mount image_one_block_file)))
                   = Some 12) by (vm_compute; reflexivity).
      rewrite R in Hv. cbn in Hv. congruence. }
    subst r.
    apply (read_stays_within_recorded_size 4 "/f" 1000 500
             (mount image_one_block_file)
             (entry_of_bytes (entry_bytes "f" 1 512)) 12 data w');
      [lia | lia | vm_compute; reflexivity | exact R | lia].
  - exfalso.
    assert (Hv : option_map fst (fst (wfs_read 4 "/f" 1000 500 (mount image_one_block_file)))
                 = Some 12) by (vm_compute; reflexivity).
    rewrite R in Hv. discriminate Hv.
Defined.

(** ** Strings *)

Lemma append_empty_r s : (s ++ EmptyString)%string = s.
Proof. induction s as [|c s IH]; cbn; [reflexivity | rewrite IH; reflexivity]. Qed.

Lemma append_assoc (a b c : string) :
  ((a ++ b) ++ c)%string = (a ++ (b ++ c))%string.
Proof. induction a as [|x a IH]; cbn; [reflexivity | rewrite IH; reflexivity]. Qed.

Lemma length_append (a b : string) :
  String.length (a ++ b) = (String.length a + String.length b)%nat.
Proof. induction a as [|x a IH]; cbn; [reflexivity | rewrite IH; reflexivity]. Qed.

Lemma length_drop n : forall s,
  String.length (drop n s) = (String.length s - n)%nat.
Proof.
  induction n as [|n IH]; intros [|c s]; cbn; try reflexivity.
  apply IH.
Qed.

Lemma length_take n : forall s,
  (n <= String.length s)%nat -> String.length (take n s) = n.
Proof.
  induction n as [|n IH]; intros [|c s] H; cbn in *; try reflexivity; try lia.
  rewrite IH by lia. reflexivity.
Qed.

(** Where [strchr] finds the character, the string goes on with it. *)
Lemma strchr_some c : forall s k,
  strchr s c = Some k ->
  (k < String.length s)%nat /\ exists t, drop k s = String c t.
Proof.
  induction s as [|a s IH]; intros k H; cbn in H; [discriminate|].
  destruct (Ascii.eqb a c) eqn:E.
  - inversion H; subst. apply Ascii.eqb_eq in E. subst.
    cbn. split; [lia | eauto].
  - destruct (strchr s c) as [k'|] eqn:K; [|discriminate].
    inversion H; subst. destruct (IH k' eq_refl) as [Hk Ht].
    cbn. split; [lia | exact Ht].
Qed.

Lemma skip_slashes_length s :
  (String.length (skip_slashes s) <= String.length s)%nat.
Proof.
  induction s as [|c s IH]; cbn; [lia|].
  destruct (Ascii.eqb c SLASH); cbn; lia.
Qed.

Lemma skip_slashes_head s a t :
  skip_slashes s = String a t -> Ascii.eqb a SLASH = false.
Proof.
  induction s as [|c s IH]; cbn; [discriminate|].
  destruct (Ascii.eqb c SLASH) eqn:E; [exact IH|].
  intros H. inversion H; subst. exact E.
Qed.

(** A round of the resolver's loop hands a shorter path to the next. *)
Lemma round_shrinks p k e :
  strchr p SLASH = Some k ->
  (String.length (drop e (skip_slashes (drop k p))) < String.length p)%nat.
Proof.
  intros K. apply strchr_some in K. destruct K as [Hk [t Ht]].
  rewrite length_drop, Ht. cbn [skip_slashes].
  rewrite Ascii.eqb_refl.
  pose proof (skip_slashes_length t) as Hs.
  assert (Hl : String.length (drop k p) = S (String.length t))
    by (rewrite Ht; reflexivity).
  rewrite length_drop in Hl. lia.
Qed.

Lemma to_int_small x : - 2 ^ 31 <= x < 2 ^ 31 -> to_int x = x.
Proof. intros H. unfold to_int. rewrite Z.mod_small; lia. Qed.

(** ** The resolver returns *)

Lemma find_loop_total fuel :
  forall p cur w,
    (String.length p < fuel)%nat ->
    fst (find_loop fuel p cur w) <> None.
Proof.
  induction fuel as [|fuel IH]; intros p cur w Hlen; [lia|].
  cbn [find_loop].
  destruct (strchr p SLASH) as [k|] eqn:K; [|cbn [ret fst]; discriminate].
  destruct (component_end _) as [e|] eqn:E; [|cbn [ret fst]; discriminate].
  destruct (_ >=? _); [cbn [ret fst]; discriminate|].
  pose proof (round_shrinks p k e K) as Hsh.
  destruct (negb _).
  - rewrite bind_run.
    destruct (wfs_file_entry_operation _ _ _ _ _ w) as [[[r found] d] w1].
    cbn [fst snd].
    destruct (r <=? 0); [cbn [ret fst]; discriminate|].
    apply IH. lia.
  - apply IH. lia.
Qed.

(** ** Components *)

Lemma components_from_spec : forall s acc,
  components_from s acc =
  match strchr s SLASH with
  | Some e =>
      match (acc ++ take e s)%string with
      | EmptyString => components_from (drop (S e) s) EmptyString
      | name => name :: components_from (drop (S e) s) EmptyString
      end
  | None =>
      match (acc ++ s)%string with
      | EmptyString => []
      | name => [name]
      end
  end.
Proof.
  induction s as [|c s IH]; intros acc.
  - cbn. rewrite append_empty_r. destruct acc; reflexivity.
  - cbn [components_from strchr].
    destruct (Ascii.eqb c SLASH) eqn:E.
    + cbn. rewrite append_empty_r. destruct acc; reflexivity.
    + rewrite IH. destruct (strchr s SLASH) as [e|]; cbn [option_map take drop].
      * rewrite append_assoc. reflexivity.
      * rewrite append_assoc. reflexivity.
Qed.

Lemma components_step s e c :
  strchr s SLASH = Some e ->
  In c (components s) ->
  c = take e s \/ In c (components (drop e s)).
Proof.
  intros K H. unfold components in H. rewrite components_from_spec, K in H.
  cbn [append] in H.
  destruct (strchr_some _ _ _ K) as [_ [t Ht]].
  assert (Hnext : components (drop e s) = components_from (drop (S e) s) EmptyString).
  { unfold components. rewrite Ht. cbn [components_from].
    rewrite Ascii.eqb_refl.
    replace (drop (S e) s) with t; [reflexivity|].
    clear - Ht. revert s Ht. induction e as [|e IH]; intros [|a s] Ht; cbn in *;
      try discriminate.
    - inversion Ht; reflexivity.
    - apply IH; exact Ht. }
  rewrite Hnext.
  destruct (take e s) eqn:T.
  - right. exact H.
  - destruct H as [H | H]; [left; symmetry; exact H | right; exact H].
Qed.

Lemma components_last s c :
  strchr s SLASH = None -> In c (components s) -> c = s.
Proof.
  intros K H. unfold components in H. rewrite components_from_spec, K in H.
  cbn [append] in H. destruct s; [contradiction|].
  destruct H as [H | []]. symmetry; exact H.
Qed.

Lemma components_skip_slashes s :
  components (skip_slashes s) = components s.
Proof.
  induction s as [|c s IH]; [reflexivity|].
  cbn [skip_slashes]. destruct (Ascii.eqb c SLASH) eqn:E; [|reflexivity].
  unfold components at 2. cbn [components_from]. rewrite E. exact IH.
Qed.

(** ** Long components *)

Lemma find_loop_rejects_long fuel :
  forall p cur w c,
    (String.length p < fuel)%nat ->
    Z.of_nat (String.length p) < 2 ^ 31 - 1 ->
    at_separator p ->
    In c (components p) ->
    (56 <= String.length c)%nat ->
    fst (find_loop fuel p cur w) = Some None.
Proof.
  induction fuel as [|fuel IH]; intros p cur w c Hfuel Hlen Hsep Hin Hc; [lia|].
  destruct Hsep as [-> | [t ->]]; [contradiction|].
  cbn [find_loop strchr]. change (Ascii.eqb SLASH SLASH) with true. cbn [drop].
  set (p := String SLASH t) in *.
  set (p2 := skip_slashes p) in *.
  rewrite <- (components_skip_slashes p) in Hin. fold p2 in Hin.
  assert (Hp2 : (String.length p2 < String.length p)%nat).
  { exact (round_shrinks p 0 0 eq_refl). }
  unfold component_end.
  destruct (strchr p2 SLASH) as [e|] eqn:K.
  - destruct (strchr_some _ _ _ K) as [He Hnext].
    rewrite to_int_small by lia.
    destruct (components_step _ _ _ K Hin) as [-> | Hin'].
    + rewrite length_take in Hc by lia.
      replace (Z.of_nat e + 1 >=? WFS_FILENAME_SIZE - 1) with true
        by (symmetry; rewrite Z.geb_leb; apply Z.leb_le; unfold WFS_FILENAME_SIZE; lia).
      reflexivity.
    + destruct (_ >=? _); [reflexivity|].
      assert (Hl : (String.length (drop e p2) < fuel)%nat)
        by (rewrite length_drop; lia).
      assert (Hl2 : Z.of_nat (String.length (drop e p2)) < 2 ^ 31 - 1)
        by (rewrite length_drop; lia).
      assert (Hs : at_separator (drop e p2)) by (right; exact Hnext).
      destruct (negb _).
      * rewrite bind_run.
        destruct (wfs_file_entry_operation _ _ _ _ _ w) as [[[r found] d] w1].
        cbn [fst snd]. destruct (r <=? 0); [reflexivity|].
        apply (IH _ _ _ c); assumption.
      * apply (IH _ _ _ c); assumption.
  - apply components_last in Hin; [|exact K]. subst c.
    unfold strnlen, PATH_MAX.
    destruct (0 <? Nat.min (String.length p2) 4096)%nat eqn:Z0;
      [|apply Nat.ltb_ge in Z0; lia].
    rewrite to_int_small by lia.
    replace (_ >=? WFS_FILENAME_SIZE - 1) with true
      by (symmetry; rewrite Z.geb_leb; apply Z.leb_le; unfold WFS_FILENAME_SIZE; lia).
    reflexivity.
Qed.

Lemma c_str_head path :
  Ascii.eqb (hd NUL (list_ascii_of_string path)) SLASH = true ->
  exists t, path = String SLASH t.
Proof.
  destruct path as [|a t]; cbn; [discriminate|].
  intros H. apply Ascii.eqb_eq in H. subst. eauto.
Qed.

Lemma find_entry_rejects_long path w c :
  Z.of_nat (String.length (c_str path)) < 2 ^ 31 - 1 ->
  In c (components (c_str path)) ->
  (56 <= String.length c)%nat ->
  wfs_find_entry path w = (None, snd (wfs_find_entry path w)).
Proof.
  intros Hlen Hin Hc. unfold wfs_find_entry.
  destruct ((String.length (c_str path) =? 0)%nat || _) eqn:G; [reflexivity|].
  apply orb_false_iff in G. destruct G as [_ G].
  apply negb_false_iff in G. apply c_str_head in G.
  rewrite bind_run.
  rewrite (find_loop_rejects_long _ _ _ _ c); try assumption.
  - reflexivity.
  - lia.
  - right. exact G.
Qed.

(** ** The names the resolver can return *)

Lemma strncpy_chars_length n : forall src, List.length (strncpy_chars n src) = n.
Proof.
  induction n as [|n IH]; intros src; cbn [strncpy_chars]; [reflexivity|].
  destruct src as [|c s]; [|destruct (is_nul c)]; cbn [List.length]; rewrite IH;
    reflexivity.
Qed.

Lemma overlay_length got old :
  List.length (overlay got old)
  = (List.length got + (List.length old - List.length got))%nat.
Proof. unfold overlay. rewrite length_app, length_skipn. reflexivity. Qed.

(** A terminator stored at [i] ends the string there at the latest. *)
Lemma store_nul_bounds_name i : forall a,
  (i < List.length a)%nat ->
  (String.length (string_of_chars (store i NUL a)) <= i)%nat.
Proof.
  induction i as [|i IH]; intros [|x a] H; cbn in H; try lia.
  - cbn. lia.
  - cbn [store string_of_chars]. destruct (is_nul x); cbn [String.length]; [lia|].
    specialize (IH a ltac:(lia)). lia.
Qed.

Lemma component_name_short path len :
  len < WFS_FILENAME_SIZE - 1 ->
  (String.length (string_of_chars (component_name path len)) <= 55)%nat.
Proof.
  unfold WFS_FILENAME_SIZE. intros H. unfold component_name.
  etransitivity; [apply store_nul_bounds_name|lia].
  unfold strncpy. rewrite overlay_length, strncpy_chars_length.
  cbn [zero_entry filename]. rewrite repeat_length. lia.
Qed.

(** Arrays that [strncmp] finds equal hold the same string, provided
    one of them ends within the compared length. *)
Lemma strncmp_eq_names n : forall a b,
  strncmp_eq a b n = true ->
  (String.length (string_of_chars b) < n)%nat ->
  string_of_chars a = string_of_chars b.
Proof.
  induction n as [|n IH]; intros a b H Hb; [lia|].
  cbn [strncmp_eq] in H.
  destruct (Ascii.eqb (hd NUL a) (hd NUL b)) eqn:E; [|discriminate].
  apply Ascii.eqb_eq in E.
  destruct a as [|x a], b as [|y b]; cbn [hd tl] in *.
  - reflexivity.
  - subst y. reflexivity.
  - subst x. reflexivity.
  - subst y. cbn [string_of_chars] in *. destruct (is_nul x); [reflexivity|].
    cbn [String.length] in Hb. rewrite (IH a b H); [reflexivity | lia].
Qed.

Lemma entry_loop_find {D} (cb : wfs_file_entry_t -> D -> D) start idxs :
  forall count entry data w r found d w',
    entry_loop WFS_FILE_ENTRY_OP_FIND cb start idxs count entry data w
    = (r, found, d, w') ->
    (r = count /\ found = entry)
    \/ (r = 1 /\ strncmp_eq (filename found) (filename entry)
                            (Z.to_nat WFS_FILENAME_SIZE) = true).
Proof.
  induction idxs as [|i rest IH]; intros count entry data w r found d w' H;
    cbn [entry_loop] in H.
  - inversion H; subst. left. split; reflexivity.
  - rewrite bind_uninitialised, bind_run in H.
    destruct (pread sizeof_entry _ w) as [[n got] w1]. cbn [fst snd] in H.
    destruct (wfs_file_entry_is_empty _); [eapply IH; exact H|].
    destruct (strncmp_eq _ _ _) eqn:Cmp; [|eapply IH; exact H].
    inversion H; subst. right. split; [reflexivity | exact Cmp].
Qed.

(** A lookup that reports success hands back a record whose name field
    compares equal to the name sought. *)
Lemma entry_operation_find {D} parent entry (cb : wfs_file_entry_t -> D -> D)
    data w r found d w' :
  wfs_file_entry_operation parent WFS_FILE_ENTRY_OP_FIND entry cb data w
  = (r, found, d, w') ->
  0 < r ->
  strncmp_eq (filename found) (filename entry) (Z.to_nat WFS_FILENAME_SIZE) = true.
Proof.
  unfold wfs_file_entry_operation. intros H Hr.
  destruct parent as [parent|].
  - destruct (is_find _ && _).
    + inversion H; subst. unfold EINVAL in Hr. lia.
    + apply entry_loop_find in H. destruct H as [[H _] | [_ H]]; [lia | exact H].
  - inversion H; subst. unfold EINVAL in Hr. lia.
Qed.

Lemma find_loop_names_short fuel :
  forall p cur w e w',
    (String.length (entry_name cur) <= 55)%nat ->
    find_loop fuel p cur w = (Some (Some e), w') ->
    (String.length (entry_name e) <= 55)%nat.
Proof.
  induction fuel as [|fuel IH]; intros p cur w e w' Hcur H;
    cbn [find_loop] in H; [discriminate|].
  destruct (strchr p SLASH) as [k|]; [|inversion H; subst; exact Hcur].
  destruct (component_end _) as [e0|]; [|inversion H; subst; exact Hcur].
  destruct (_ >=? _) eqn:G; [discriminate|].
  rewrite Z.geb_leb in G. apply Z.leb_gt in G.
  pose proof (component_name_short (skip_slashes (drop k p)) _ G) as Hname.
  cbn [filename] in H.
  destruct (negb _).
  - rewrite bind_run in H.
    destruct (wfs_file_entry_operation _ _ _ _ _ w) as [[[r found] d] w1] eqn:Op.
    cbn [fst snd] in H.
    destruct (r <=? 0) eqn:R; [discriminate|]. apply Z.leb_gt in R.
    apply entry_operation_find in Op; [|exact R].
    apply strncmp_eq_names in Op; cbn [filename] in *;
      [| change (Z.to_nat WFS_FILENAME_SIZE) with 58%nat; lia].
    eapply IH; [|exact H]. unfold entry_name. rewrite Op. exact Hname.
  - eapply IH; [|exact H]. exact Hname.
Qed.

Lemma find_entry_names_short path w e :
  fst (wfs_find_entry path w) = Some e ->
  (String.length (entry_name e) <= 55)%nat.
Proof.
  unfold wfs_find_entry.
  destruct (_ || _); [discriminate|].
  rewrite bind_run.
  destruct (find_loop _ (c_str path) zero_entry w) as [[res|] w1] eqn:L;
    cbn [fst snd ret]; [|discriminate].
  intros ->. eapply find_loop_names_short; [|exact L].
  cbn. lia.
Qed.

(** C10. The resolver refuses every path that has a component of 56
    characters or more, and so whatever entry a path resolves to
    carries a name of at most 55 characters: an entry whose name has 56
    or 57 characters, which the 58-byte name field can hold, is never
    the result. (A path is shorter than 2^31 - 1 characters; the
    component length is computed in [int].) *)
Theorem names_of_56_or_more_never_resolve :
  forall (path : string) (w : world),
    Z.of_nat (String.length (c_str path)) < 2 ^ 31 - 1 ->
    (forall c, In c (components (c_str path)) ->
               (56 <= String.length c)%nat ->
               fst (wfs_find_entry path w) = None)
    /\ (forall e, fst (wfs_find_entry path w) = Some e ->
                  (String.length (entry_name e) <= 55)%nat).
Proof.
  intros path w Hlen. split.
  - intros c Hin Hc. rewrite (find_entry_rejects_long path w c Hlen Hin Hc).
    reflexivity.
  - intros e He. exact (find_entry_names_short path w e He).
Qed.

Lemma names_of_56_or_more_never_resolve_witness :
  let path := String SLASH name56 in
  let w := mount image_long_name in
  Z.of_nat (String.length (c_str path)) < 2 ^ 31 - 1
  /\ In name56 (components (c_str path))
  /\ (56 <= String.length name56)%nat
  /\ entry_name (entry_of_bytes (image_bytes image_long_name (root_slot 0) sizeof_entry))
     = name56
  /\ fst (wfs_find_entry path w) = None.
Proof.
  cbv zeta.
  assert (Hlen : Z.of_nat (String.length (c_str (String SLASH name56))) < 2 ^ 31 - 1)
    by (vm_compute; reflexivity).
  assert (Hin : In name56 (components (c_str (String SLASH name56))))
    by (vm_compute; left; reflexivity).
  assert (Hc : (56 <= String.length name56)%nat) by (vm_compute; apply le_n).
  split; [exact Hlen|]. split; [exact Hin|]. split; [exact Hc|].
  split; [vm_compute; reflexivity|].
  exact (proj1 (names_of_56_or_more_never_resolve (String SLASH name56)
                  (mount image_long_name) Hlen) name56 Hin Hc).
Defined.

(** ** A long component stops the resolver where it stands *)



Lemma drop_all q : drop (String.length q) q = EmptyString.
Proof. induction q as [|a q IH]; cbn; [reflexivity | exact IH]. Qed.






(** [strncpy] looks at the first [n] characters of its source only. *)
Lemma strncpy_chars_app n : forall q y,
  (n <= String.length q)%nat ->
  strncpy_chars n (q ++ y) = strncpy_chars n q.
Proof.
  induction n as [|n IH]; intros q y H; [reflexivity|].
  destruct q as [|a q]; cbn in H; [lia|].
  cbn [append strncpy_chars]. destruct (is_nul a); [reflexivity|].
  rewrite IH by lia. reflexivity.
Qed.

Lemma strncpy_chars_snoc n : forall s,
  exists v, strncpy_chars (S n) s = strncpy_chars n s ++ [v].
Proof.
  induction n as [|n IH]; intros s.
  - cbn. destruct s as [|a s]; [|destruct (is_nul a)]; eauto.
  - destruct s as [|a s]; [|destruct (is_nul a) eqn:E].
    + destruct (IH EmptyString) as [v Hv]. exists v.
      change (NUL :: strncpy_chars (S n) EmptyString
              = (NUL :: strncpy_chars n EmptyString) ++ [v]).
      rewrite Hv. reflexivity.
    + destruct (IH EmptyString) as [v Hv]. exists v.
      transitivity (NUL :: strncpy_chars (S n) EmptyString).
      * cbn [strncpy_chars]. rewrite E. reflexivity.
      * rewrite Hv. cbn [strncpy_chars]. rewrite E. reflexivity.
    + destruct (IH s) as [v Hv]. exists v.
      transitivity (a :: strncpy_chars (S n) s).
      * cbn [strncpy_chars]. rewrite E. reflexivity.
      * rewrite Hv. cbn [strncpy_chars]. rewrite E. reflexivity.
Qed.

Lemma store_app i c : forall u v r,
  List.length u = i -> store i c (u ++ v :: r) = u ++ c :: r.
Proof.
  induction i as [|i IH]; intros [|x u] v r H; cbn in *; try discriminate.
  - reflexivity.
  - rewrite IH by lia. reflexivity.
Qed.

(** The separator that follows a component does not reach its name:
    the terminator is stored over it. *)
Lemma component_name_app q y :
  component_name (q ++ y) (Z.of_nat (String.length q) + 1)
  = component_name q (Z.of_nat (String.length q) + 1).
Proof.
  unfold component_name, strncpy, overlay.
  replace (Z.to_nat (Z.of_nat (String.length q) + 1)) with (S (String.length q)) by lia.
  replace (Z.to_nat (Z.of_nat (String.length q) + 1 - 1)) with (String.length q) by lia.
  destruct (strncpy_chars_snoc (String.length q) (q ++ y)) as [v1 H1].
  destruct (strncpy_chars_snoc (String.length q) q) as [v2 H2].
  rewrite (strncpy_chars_app (String.length q)) in H1 by lia.
  rewrite H1, H2, !length_app, !strncpy_chars_length. cbn [List.length].
  rewrite <- !app_assoc. cbn [app].
  rewrite !store_app by apply strncpy_chars_length. reflexivity.
Qed.


Lemma c_str_app a : forall b, c_str (a ++ b) = (a ++ b)%string -> c_str a = a.
Proof.
  induction a as [|x a IH]; intros b H; [reflexivity|].
  cbn in *. destruct (is_nul x); [discriminate|].
  inversion H as [H']. rewrite (IH b H'). reflexivity.
Qed.


Section LongComponent.
Variables c rest : string.
Hypothesis c_no_slash : strchr c SLASH = None.
Hypothesis c_long : (56 <= String.length c)%nat.
Hypothesis rest_sep : at_separator rest.




Let T : string := String SLASH (c ++ rest).


End LongComponent.





(** ** The fuel is enough *)

(** The resolver's own fuel never runs out. *)
Lemma find_entry_fuel_suffices path w :
  fst (find_loop (S (String.length (c_str path))) (c_str path) zero_entry w) <> None.
Proof. apply find_loop_total. lia. Qed.

(** A read inside a validated image is never short. *)
Lemma pread_inside_image count offset w :
  0 <= offset -> 0 <= count ->
  offset + count <= image_size (image w) ->
  fst (fst (pread count offset w)) = count.
Proof.
  intros Ho Hc Hin. unfold pread.
  replace (offset <? 0) with false by (symmetry; apply Z.ltb_ge; lia).
  cbn [fst]. rewrite image_bytes_length. lia.
Qed.

(** On an image of full size every round of the read loop either
    returns or consumes a byte, so fuel for [size] rounds gives a
    result. *)
Lemma read_loop_returns fuel :
  forall size block bp read buf w,
    wfs_get_size <= image_size (image w) ->
    0 <= size < 2 ^ 64 -> (Z.to_nat size <= fuel)%nat ->
    0 <= bp < WFS_BLOCK_SIZE ->
    fst (read_loop fuel size block bp read buf w) <> None.
Proof.
  unfold WFS_BLOCK_SIZE.
  induction fuel as [|fuel IH]; intros size block bp read buf w Himg Hs Hfuel Hbp;
    cbn [read_loop];
    destruct ((0 <? size) && (WFS_BLOCK_FREE <? block) && (block <=? WFS_BLOCK_EOF))
      eqn:C; try (cbn [ret fst]; discriminate);
    apply andb_prop in C; destruct C as [C C3];
    apply andb_prop in C; destruct C as [C1 C2];
    apply Z.ltb_lt in C1; apply Z.ltb_lt in C2; apply Z.leb_le in C3;
    unfold WFS_BLOCK_FREE, WFS_BLOCK_EOF in *; [lia|].
  unfold WFS_BLOCK_SIZE, to_u16.
  rewrite (Z.mod_small 512) by lia.
  rewrite (Z.mod_small (512 - bp)) by lia.
  set (t0 := if bp =? 0 then 512 else 512 - bp).
  assert (Ht0 : t0 = 512 - bp).
  { subst t0. destruct (bp =? 0) eqn:E; [apply Z.eqb_eq in E; lia | reflexivity]. }
  set (t1 := if t0 >? size then size mod 2 ^ 16 else t0).
  assert (Ht1 : 0 < t1 <= size /\ t1 <= 512 - bp).
  { subst t1. destruct (t0 >? size) eqn:G.
    - apply Z.gtb_lt in G. rewrite Z.mod_small by lia. lia.
    - rewrite Z.gtb_ltb in G. apply Z.ltb_ge in G. lia. }
  rewrite bind_run.
  pose proof (read_only_pread t1 (wfs_get_block_offset (block - 1) + bp) w) as [Hi _].
  destruct (pread t1 (wfs_get_block_offset (block - 1) + bp) w) as [[n got] w1] eqn:P.
  cbn [fst snd] in *.
  assert (Hn : 0 <= n <= t1).
  { apply pread_count in P; [tauto | | lia].
    pose proof (block_offset_nonneg (block - 1)). lia. }
  rewrite (Z.mod_small n) by lia.
  unfold to_u64. rewrite (Z.mod_small (size - n)) by lia.
  destruct (0 <? size - n) eqn:More.
  - apply Z.ltb_lt in More. rewrite bind_run.
    pose proof (read_only_get_next_block (block mod 2 ^ 16) w1) as [Hi2 _].
    destruct (Z_le_gt_dec block WFS_N_BLOCKS) as [Hin | Hout];
      unfold WFS_N_BLOCKS in *.
    + (* a block of the image: the transfer is complete *)
      assert (Hfull : n = t1).
      { pose proof (pread_inside_image t1 (wfs_get_block_offset (block - 1) + bp) w)
          as Hp.
        rewrite P in Hp. cbn [fst] in Hp. apply Hp.
        - pose proof (block_offset_nonneg (block - 1)). lia.
        - lia.
        - unfold wfs_get_block_offset, to_u32.
          change WFS_DATA_START with 36880. change WFS_BLOCK_SIZE with 512.
          rewrite Z.mod_small by lia.
          change wfs_get_size with 8425488 in Himg. lia. }
      destruct (wfs_get_next_block (block mod 2 ^ 16) w1) as [nb w2].
      cbn [fst snd] in *.
      destruct ((nb =? 0) || (nb >=? 65534)); [cbn [ret fst]; discriminate|].
      apply IH; try lia. congruence.
    + (* beyond the image: the chain ends here *)
      rewrite (Z.mod_small block) by lia.
      rewrite (next_block_rejects_high_blocks block w1)
        by (right; unfold WFS_N_BLOCKS; lia).
      cbn [fst snd]. cbn [ret fst]. discriminate.
  - apply Z.ltb_ge in More.
    replace (size - n) with 0 by lia.
    destruct fuel; cbn [read_loop]; cbn [ret fst]; discriminate.
Qed.

(** X17. [wfs_read] returns on every image that passed [wfs_check_image],
    given fuel for as many rounds as the file can have bytes left. *)
Lemma wfs_read_returns fuel path size offset w :
  wfs_get_size <= image_size (image w) ->
  0 <= size < 2 ^ 63 ->
  - 2 ^ 63 <= offset < 2 ^ 63 ->
  (Z.to_nat (Z.min size WFS_SIZE_MASK) <= fuel)%nat ->
  fst (wfs_read fuel path size offset w) <> None.
Proof.
  intros Himg Hsize Hoff Hfuel. unfold wfs_read. rewrite bind_run.
  pose proof (read_only_find_entry path w) as [Hi1 _].
  destruct (wfs_find_entry path w) as [[e|] w1]; cbn [fst snd] in *;
    [|discriminate].
  assert (Hcs : 0 <= wfs_file_entry_get_size e < 2 ^ 28).
  { unfold wfs_file_entry_get_size.
    change WFS_SIZE_MASK with (Z.ones 28).
    rewrite Z.land_ones by lia. apply Z.mod_pos_bound. lia. }
  set (cs := wfs_file_entry_get_size e) in *.
  destruct (to_u64 offset >? cs) eqn:G; [discriminate|].
  rewrite Z.gtb_ltb in G. apply Z.ltb_ge in G.
  assert (Hoff' : 0 <= offset <= cs).
  { unfold to_u64 in G. destruct (Z_lt_dec offset 0) as [Hneg|Hpos].
    - replace offset with (offset + 2 ^ 64 + (-1) * 2 ^ 64) in G by lia.
      rewrite Z.mod_add, Z.mod_small in G; lia.
    - rewrite Z.mod_small in G; lia. }
  rewrite bind_uninitialised, bind_run.
  match goal with
  | |- context [wfs_get_current_block e offset ?b w1] =>
      pose proof (read_only_get_current_block e offset b w1) as [Hi2 _];
      destruct (wfs_get_current_block e offset b w1) as [[block bp] w2] eqn:B
  end.
  cbn [fst snd] in *.
  destruct (block >=? WFS_BLOCK_EOF) eqn:E; [discriminate|].
  rewrite Z.geb_leb in E. apply Z.leb_gt in E.
  apply get_current_block_position in B; [| lia | lia].
  unfold to_u64.
  rewrite (Z.mod_small (offset + size)) by lia.
  rewrite (Z.mod_small (cs - offset)) by lia.
  unfold WFS_SIZE_MASK in Hfuel.
  destruct (offset + size >? cs) eqn:Clamp.
  - apply Z.gtb_lt in Clamp.
    apply read_loop_returns; try lia; congruence.
  - rewrite Z.gtb_ltb in Clamp. apply Z.ltb_ge in Clamp.
    apply read_loop_returns; try lia; congruence.
Qed.

(** * Further properties *)

(** ** Calls are transactions: no reply depends on the history *)

Lemma same_image_refl w : same_image w w.
Proof. split; reflexivity. Qed.

Lemma same_image_trans w1 w2 w3 :
  same_image w1 w2 -> same_image w2 w3 -> same_image w1 w3.
Proof. intros [A B] [C D]. split; congruence. Qed.

Lemma same_image_sym w1 w2 : same_image w1 w2 -> same_image w2 w1.
Proof. intros [A B]. split; congruence. Qed.

Lemma read_only_same_image {A} (m : M A) w :
  read_only m -> same_image (snd (m w)) w.
Proof. intros H. exact (H w). Qed.

Lemma history_free_ret {A} (a : A) : history_free (ret a).
Proof. intros w1 w2 H. split; [reflexivity | exact H]. Qed.

Lemma history_free_bind {A B} (m : M A) (k : A -> M B) :
  history_free m -> (forall a, history_free (k a)) -> history_free (bind m k).
Proof.
  intros Hm Hk w1 w2 H. rewrite !bind_run.
  destruct (Hm w1 w2 H) as [Hfst Hsnd]. rewrite Hfst.
  apply Hk. exact Hsnd.
Qed.

Lemma history_free_pread count offset : history_free (pread count offset).
Proof.
  intros w1 w2 [Hi Hj]. unfold pread. rewrite Hi.
  destruct (offset <? 0); (split; [reflexivity | split; cbn; congruence]).
Qed.

Lemma history_free_uninitialised n : history_free (uninitialised n).
Proof.
  intros w1 w2 [Hi Hj]. unfold uninitialised. cbn [fst snd]. rewrite Hj.
  split; [reflexivity | split; congruence].
Qed.

Create HintDb wfs_hf.
#[local] Hint Resolve history_free_ret history_free_pread
  history_free_uninitialised : wfs_hf.

Ltac history_free_step :=
  match goal with
  | |- history_free (bind _ _) => apply history_free_bind; [ | intros ]
  | |- history_free (match ?x with _ => _ end) => destruct x
  | |- history_free (ret _) => apply history_free_ret
  | |- history_free _ => solve [ eauto with wfs_hf ]
  end.
Ltac history_free_tac := repeat history_free_step.

Lemma history_free_block_table_read idx : history_free (wfs_block_table_read idx).
Proof. unfold wfs_block_table_read. history_free_tac. Qed.
#[local] Hint Resolve history_free_block_table_read : wfs_hf.

Lemma history_free_current_block_loop fuel :
  forall off o block, history_free (current_block_loop fuel off o block).
Proof.
  induction fuel as [|fuel IH]; intros; cbn [current_block_loop]; history_free_tac.
Qed.
#[local] Hint Resolve history_free_current_block_loop : wfs_hf.

Lemma history_free_get_current_block entry off bp :
  history_free (wfs_get_current_block entry off bp).
Proof. unfold wfs_get_current_block. history_free_tac. Qed.

Lemma history_free_get_next_block block : history_free (wfs_get_next_block block).
Proof. unfold wfs_get_next_block. history_free_tac. Qed.
#[local] Hint Resolve history_free_get_current_block
  history_free_get_next_block : wfs_hf.

Lemma history_free_entry_loop {D} op (cb : wfs_file_entry_t -> D -> D) start idxs :
  forall count entry data, history_free (entry_loop op cb start idxs count entry data).
Proof.
  induction idxs as [|i rest IH]; intros; cbn [entry_loop]; history_free_tac.
Qed.
#[local] Hint Resolve @history_free_entry_loop : wfs_hf.

Lemma history_free_entry_operation {D} parent op entry
    (cb : wfs_file_entry_t -> D -> D) data :
  history_free (wfs_file_entry_operation parent op entry cb data).
Proof. unfold wfs_file_entry_operation. history_free_tac. Qed.
#[local] Hint Resolve @history_free_entry_operation : wfs_hf.

Lemma history_free_find_loop fuel :
  forall path cur, history_free (find_loop fuel path cur).
Proof.
  induction fuel as [|fuel IH]; intros; cbn [find_loop]; history_free_tac.
Qed.
#[local] Hint Resolve history_free_find_loop : wfs_hf.

Lemma history_free_find_entry path : history_free (wfs_find_entry path).
Proof. unfold wfs_find_entry. history_free_tac. Qed.
#[local] Hint Resolve history_free_find_entry : wfs_hf.

Lemma history_free_get_parent_entry path parent :
  history_free (wfs_get_parent_entry path parent).
Proof. unfold wfs_get_parent_entry. history_free_tac. Qed.
#[local] Hint Resolve history_free_get_parent_entry : wfs_hf.

Lemma history_free_read_loop fuel :
  forall size block bp read buf,
    history_free (read_loop fuel size block bp read buf).
Proof.
  induction fuel as [|fuel IH]; intros; cbn [read_loop]; history_free_tac.
Qed.
#[local] Hint Resolve history_free_read_loop : wfs_hf.




(** ** What a scan computes *)

Lemma slot_entry_same w1 w2 off :
  same_image w1 w2 -> slot_entry w1 off = slot_entry w2 off.
Proof.
  intros H. unfold slot_entry.
  destruct (history_free_pread sizeof_entry off w1 w2 H) as [-> _].
  destruct H as [_ ->]. reflexivity.
Qed.

Lemma slots_at_same w1 w2 start idxs :
  same_image w1 w2 -> slots_at w1 start idxs = slots_at w2 start idxs.
Proof.
  intros H. unfold slots_at. apply map_ext. intros i.
  apply slot_entry_same. exact H.
Qed.

Lemma pread_same_image count offset w :
  same_image (snd (pread count offset w)) w.
Proof. apply read_only_same_image. apply read_only_pread. Qed.

(** One round of the scan, with the record it looks at named. *)
Lemma entry_loop_cons {D} op (cb : wfs_file_entry_t -> D -> D) start i rest
    count entry data w :
  entry_loop op cb start (i :: rest) count entry data w =
  let off := start + Z.of_nat i * sizeof_entry in
  let tmp_entry := slot_entry w off in
  let w1 := snd (pread sizeof_entry off w) in
  match op with
  | WFS_FILE_ENTRY_OP_FIND =>
      if wfs_file_entry_is_empty tmp_entry
      then entry_loop op cb start rest count entry data w1
      else if strncmp_eq (filename tmp_entry) (filename entry)
                         (Z.to_nat WFS_FILENAME_SIZE)
      then (1, tmp_entry, data, w1)
      else entry_loop op cb start rest count entry data w1
  | WFS_FILE_ENTRY_OP_COUNT =>
      entry_loop op cb start rest
        (if wfs_file_entry_is_empty tmp_entry then count else to_int (count + 1))
        entry data w1
  | WFS_FILE_ENTRY_OP_CALLBACK =>
      entry_loop op cb start rest count entry
        (if wfs_file_entry_is_empty tmp_entry then data else cb tmp_entry data) w1
  | _ => entry_loop op cb start rest count entry data w1
  end.
Proof.
  cbn [entry_loop]. rewrite bind_uninitialised, bind_run.
  unfold slot_entry.
  destruct (pread sizeof_entry (start + Z.of_nat i * sizeof_entry) w)
    as [[n got] w1].
  cbn [fst snd]. destruct op; try reflexivity.
  destruct (wfs_file_entry_is_empty _); [reflexivity|].
  destruct (strncmp_eq _ _ _); reflexivity.
Qed.

Lemma entry_loop_callback {D} (cb : wfs_file_entry_t -> D -> D) start idxs :
  forall count entry data w,
    fst (entry_loop WFS_FILE_ENTRY_OP_CALLBACK cb start idxs count entry data w)
    = (count, entry,
       fold_left (fun d e => cb e d) (filter in_use (slots_at w start idxs)) data).
Proof.
  induction idxs as [|i rest IH]; intros count entry data w; [reflexivity|].
  rewrite entry_loop_cons. cbv zeta. rewrite IH.
  rewrite (slots_at_same _ w) by apply pread_same_image.
  cbn [slots_at map filter]. unfold in_use at 2.
  destruct (wfs_file_entry_is_empty _); reflexivity.
Qed.

Lemma entry_loop_find_first {D} (cb : wfs_file_entry_t -> D -> D) start idxs :
  forall count entry data w,
    fst (entry_loop WFS_FILE_ENTRY_OP_FIND cb start idxs count entry data w)
    = match find (find_hit entry) (slots_at w start idxs) with
      | Some e => (1, e, data)
      | None => (count, entry, data)
      end.
Proof.
  induction idxs as [|i rest IH]; intros count entry data w; [reflexivity|].
  rewrite entry_loop_cons. cbv zeta.
  cbn [slots_at map find]. unfold find_hit at 1, in_use.
  destruct (wfs_file_entry_is_empty _); cbn [negb andb].
  - rewrite IH. rewrite (slots_at_same _ w) by apply pread_same_image.
    reflexivity.
  - destruct (strncmp_eq _ _ _); [reflexivity|].
    rewrite IH. rewrite (slots_at_same _ w) by apply pread_same_image.
    reflexivity.
Qed.

Lemma entry_loop_count {D} (cb : wfs_file_entry_t -> D -> D) start idxs :
  forall count entry data w,
    0 <= count ->
    count + Z.of_nat (List.length idxs) < 2 ^ 31 ->
    fst (entry_loop WFS_FILE_ENTRY_OP_COUNT cb start idxs count entry data w)
    = (count + Z.of_nat (List.length (filter in_use (slots_at w start idxs))),
       entry, data).
Proof.
  induction idxs as [|i rest IH]; intros count entry data w Hc Hb.
  - cbn. rewrite Z.add_0_r. reflexivity.
  - rewrite entry_loop_cons. cbv zeta. cbn [List.length] in Hb.
    cbn [slots_at map filter]. unfold in_use at 1.
    destruct (wfs_file_entry_is_empty _); cbn [negb].
    + rewrite IH by lia.
      rewrite (slots_at_same _ w) by apply pread_same_image. reflexivity.
    + rewrite to_int_small by lia. rewrite IH by lia.
      rewrite (slots_at_same _ w) by apply pread_same_image.
      unfold slots_at. cbn [List.length]. f_equal. f_equal. lia.
Qed.

Lemma scan_callback_result {D} parent entry (cb : wfs_file_entry_t -> D -> D)
    data w :
  fst (wfs_file_entry_operation (Some parent) WFS_FILE_ENTRY_OP_CALLBACK
         entry cb data w)
  = (0, entry,
     fold_left (fun d e => cb e d) (filter in_use (scan_slots w parent)) data).
Proof.
  unfold wfs_file_entry_operation. fold (scan_start parent).
  cbn [is_find andb]. apply entry_loop_callback.
Qed.

Lemma scan_find_result {D} parent entry (cb : wfs_file_entry_t -> D -> D)
    data w :
  fst (wfs_file_entry_operation (Some parent) WFS_FILE_ENTRY_OP_FIND
         entry cb data w)
  = if is_nul (nth 0 (filename entry) NUL) then (- EINVAL, entry, data)
    else match find (find_hit entry) (scan_slots w parent) with
         | Some e => (1, e, data)
         | None => (0, entry, data)
         end.
Proof.
  unfold wfs_file_entry_operation. fold (scan_start parent).
  cbn [is_find andb].
  destruct (is_nul (nth 0 (filename entry) NUL)); [reflexivity|].
  apply entry_loop_find_first.
Qed.


(** X3. A lookup returns 1 and the first record of the window that is
    in use and whose name field compares equal to the name sought, 0
    if there is none, and -EINVAL for an empty name. *)
Theorem lookup_returns_first_match :
  forall (D : Type) (parent entry : wfs_file_entry_t)
         (cb : wfs_file_entry_t -> D -> D) (data : D) (w : world),
    fst (wfs_file_entry_operation (Some parent) WFS_FILE_ENTRY_OP_FIND
           entry cb data w)
    = if is_nul (nth 0 (filename entry) NUL) then (- EINVAL, entry, data)
      else match find (find_hit entry) (scan_slots w parent) with
           | Some e => (1, e, data)
           | None => (0, entry, data)
           end.
Proof. intros. apply scan_find_result. Qed.

(** X4. The count operation returns the number of records the
    enumeration of the same directory hands over. *)
Theorem count_agrees_with_enumeration :
  forall (parent e1 e2 : wfs_file_entry_t) (w : world),
    fst (fst (fst (wfs_file_entry_operation (Some parent) WFS_FILE_ENTRY_OP_COUNT
                     e1 (fun _ (d : unit) => d) tt w)))
    = Z.of_nat (List.length
                  (snd (fst (wfs_file_entry_operation (Some parent)
                               WFS_FILE_ENTRY_OP_CALLBACK e2
                               wfs_readdir_callback [] w)))).
Proof.
  intros. rewrite scan_callback_result. cbn [fst snd].
  unfold wfs_file_entry_operation. fold (scan_start parent).
  cbn [is_find andb].
  rewrite entry_loop_count by (cbn; lia).
  cbn [fst Z.add]. fold (scan_slots w parent).
  generalize (filter in_use (scan_slots w parent)). intros l.
  assert (G : forall acc,
             List.length (fold_left (fun d e0 => wfs_readdir_callback e0 d) l acc)
             = (List.length acc + List.length l)%nat).
  { induction l as [|x l IH]; intros acc; cbn [fold_left List.length]; [lia|].
    rewrite IH. unfold wfs_readdir_callback, filler. rewrite length_app. cbn. lia. }
  rewrite G. reflexivity.
Qed.

(** ** Listing and lookup agree *)















(** ** Resolution goes component by component *)

Lemma take_then_drop n : forall s, (take n s ++ drop n s)%string = s.
Proof.
  induction n as [|n IH]; intros [|c s]; cbn; try reflexivity.
  rewrite IH. reflexivity.
Qed.

Lemma components_single s :
  strchr s SLASH = None -> s <> EmptyString -> components s = [s].
Proof.
  intros K Hs. unfold components. rewrite components_from_spec, K.
  cbn [append]. destruct s; [contradiction | reflexivity].
Qed.

Lemma components_cons s e a t :
  strchr s SLASH = Some e ->
  take e s = String a t ->
  components s = take e s :: components (drop e s).
Proof.
  intros K T. unfold components at 1. rewrite components_from_spec, K.
  cbn [append]. rewrite T.
  destruct (strchr_some _ _ _ K) as [_ [u Hu]].
  unfold components. rewrite Hu. cbn [components_from].
  change (Ascii.eqb SLASH SLASH) with true. cbv iota.
  replace (drop (S e) s) with u; [reflexivity|].
  clear - Hu. revert s Hu. induction e as [|e IH]; intros [|b s] Hu; cbn in *;
    try discriminate.
  - inversion Hu; reflexivity.
  - apply IH; exact Hu.
Qed.

Lemma lookup_component_run cur c w :
  lookup_component cur c w =
  let len := Z.of_nat (String.length c) + 1 in
  if len >=? WFS_FILENAME_SIZE - 1 then (None, w)
  else
    let sought := mk_entry (component_name c len) 0 0 in
    if negb (is_nul (nth 0 (component_name c len) NUL)) then
      let x := wfs_file_entry_operation (Some cur) WFS_FILE_ENTRY_OP_FIND
                 sought (fun _ (d : unit) => d) tt w in
      (if fst (fst (fst x)) <=? 0 then None else Some (snd (fst (fst x))), snd x)
    else (Some sought, w).
Proof.
  unfold lookup_component. cbv zeta. cbn [filename].
  destruct (_ >=? _); [reflexivity|].
  destruct (negb _); [|reflexivity].
  rewrite bind_run.
  destruct (wfs_file_entry_operation _ _ _ _ _ w) as [[[r found] d] w1].
  reflexivity.
Qed.

Lemma resolve_components_cons c cs cur w :
  resolve_components (c :: cs) cur w =
  match fst (lookup_component cur c w) with
  | Some e => resolve_components cs e (snd (lookup_component cur c w))
  | None => (None, snd (lookup_component cur c w))
  end.
Proof.
  cbn [resolve_components]. rewrite bind_run.
  destruct (fst (lookup_component cur c w)); reflexivity.
Qed.

(** With fuel to spare the loop of the resolver is the resolution by
    components. *)
Lemma find_loop_by_components fuel :
  forall p cur w,
    (String.length p < fuel)%nat ->
    Z.of_nat (String.length p) < 2 ^ 31 - 1 ->
    at_separator p ->
    find_loop fuel p cur w
    = (Some (fst (resolve_components (components p) cur w)),
       snd (resolve_components (components p) cur w)).
Proof.
  induction fuel as [|fuel IH]; intros p cur w Hfuel Hlen Hsep; [lia|].
  destruct Hsep as [-> | [t ->]]; [reflexivity|].
  cbn [find_loop strchr]. change (Ascii.eqb SLASH SLASH) with true. cbn [drop].
  set (p := String SLASH t) in *.
  rewrite <- (components_skip_slashes p).
  assert (Hp2 : (String.length (skip_slashes p) < String.length p)%nat)
    by exact (round_shrinks p 0 0 eq_refl).
  destruct (skip_slashes p) as [|a q] eqn:Q; [reflexivity|].
  pose proof (skip_slashes_head _ _ _ Q) as Ha.
  remember (String a q) as p2 eqn:Ep2.
  unfold component_end.
  destruct (strchr p2 SLASH) as [e|] eqn:K.
  - destruct (strchr_some _ _ _ K) as [He Hnext].
    assert (He1 : exists e', e = S e').
    { destruct e; [|eauto]. subst p2. cbn in K. rewrite Ha in K.
      destruct (strchr q SLASH); discriminate. }
    destruct He1 as [e' ->].
    assert (Hc : components p2 = take (S e') p2 :: components (drop (S e') p2)).
    { subst p2. exact (components_cons _ (S e') a (take e' q) K eq_refl). }
    rewrite Hc.
    assert (Hlt : String.length (take (S e') p2) = S e')
      by (apply length_take; lia).
    pose proof (component_name_app (take (S e') p2) (drop (S e') p2)) as Hn.
    rewrite take_then_drop, Hlt in Hn.
    rewrite resolve_components_cons, lookup_component_run. cbv zeta.
    rewrite Hlt, to_int_small by lia. rewrite Hn. cbn [filename].
    destruct (_ >=? _); [reflexivity|].
    assert (Hl : (String.length (drop (S e') p2) < fuel)%nat)
      by (rewrite length_drop; lia).
    assert (Hl2 : Z.of_nat (String.length (drop (S e') p2)) < 2 ^ 31 - 1)
      by (rewrite length_drop; lia).
    assert (Hs : at_separator (drop (S e') p2)) by (right; exact Hnext).
    destruct (negb _).
    + rewrite bind_run.
      destruct (wfs_file_entry_operation _ _ _ _ _ w) as [[[r found] d] w1].
      cbn [fst snd]. destruct (r <=? 0); [reflexivity|].
      apply IH; assumption.
    + cbn [fst snd]. apply IH; assumption.
  - assert (Hc : components p2 = [p2])
      by (apply components_single; [exact K | subst p2; discriminate]).
    rewrite Hc.
    rewrite resolve_components_cons, lookup_component_run. cbv zeta.
    unfold strnlen, PATH_MAX.
    assert (Hpos : (0 < String.length p2)%nat) by (subst p2; cbn; lia).
    destruct (0 <? Nat.min (String.length p2) 4096)%nat eqn:Z0;
      [|apply Nat.ltb_ge in Z0; lia].
    rewrite to_int_small by lia.
    destruct (Nat.le_gt_cases (String.length p2) 4096) as [Hsmall | Hbig].
    + replace (Nat.min (String.length p2) 4096) with (String.length p2) by lia.
      cbn [filename].
      destruct (_ >=? _); [reflexivity|].
      rewrite drop_all.
      destruct fuel as [|fuel']; [lia|].
      destruct (negb _).
      * rewrite bind_run.
        destruct (wfs_file_entry_operation _ _ _ _ _ w) as [[[r found] d] w1].
        cbn [fst snd]. destruct (r <=? 0); reflexivity.
      * reflexivity.
    + replace (Nat.min (String.length p2) 4096) with 4096%nat by lia.
      replace (Z.of_nat (String.length p2) + 1 >=? WFS_FILENAME_SIZE - 1) with true
        by (symmetry; rewrite Z.geb_leb; apply Z.leb_le;
            unfold WFS_FILENAME_SIZE; lia).
      reflexivity.
Qed.

Lemma find_entry_by_components path w :
  absolute path ->
  Z.of_nat (String.length path) < 2 ^ 31 - 1 ->
  wfs_find_entry path w = resolve_components (components path) zero_entry w.
Proof.
  intros [Hstr [t Ht]] Hlen. unfold wfs_find_entry. rewrite Hstr.
  subst path. cbn [String.length] in Hlen.
  cbn [String.length Nat.eqb orb list_ascii_of_string hd].
  change (Ascii.eqb SLASH SLASH) with true. cbn [negb].
  rewrite bind_run, find_loop_by_components;
    [| cbn [String.length]; lia | cbn [String.length]; lia | right; eauto].
  cbn [fst snd ret].
  destruct (resolve_components _ zero_entry w); reflexivity.
Qed.

(** X6. Resolving an absolute path is the resolution by components:
    starting from the root, each component's name is looked up in the
    entry the components before it resolved to, and the first failed
    lookup, or the first component of 56 characters or more, fails the
    resolution. Empty components do not show. *)
Theorem resolution_goes_by_components :
  forall (path : string) (w : world),
    absolute path ->
    Z.of_nat (String.length path) < 2 ^ 31 - 1 ->
    wfs_find_entry path w = resolve_components (components path) zero_entry w.
Proof. intros path w Ha Hl. exact (find_entry_by_components path w Ha Hl). Qed.

Lemma resolution_goes_by_components_witness :
  let path := "/d//a.txt/"%string in
  let w := mount image_one_block_dir in
  absolute path
  /\ Z.of_nat (String.length path) < 2 ^ 31 - 1
  /\ components path = ["d"; "a.txt"]%string
  /\ wfs_find_entry path w = resolve_components (components path) zero_entry w.
Proof.
  cbv zeta.
  assert (Ha : absolute "/d//a.txt/") by (split; [reflexivity | eexists; reflexivity]).
  assert (Hl : Z.of_nat (String.length "/d//a.txt/") < 2 ^ 31 - 1)
    by (vm_compute; reflexivity).
  split; [exact Ha|]. split; [exact Hl|]. split; [reflexivity|].
  exact (resolution_goes_by_components "/d//a.txt/" (mount image_one_block_dir) Ha Hl).
Defined.

(** X7. Two absolute paths with the same components resolve alike,
    to the same result after the same reads: repeated and trailing
    separators make no difference. *)
Theorem same_components_resolve_alike :
  forall (p q : string) (w : world),
    absolute p -> absolute q ->
    Z.of_nat (String.length p) < 2 ^ 31 - 1 ->
    Z.of_nat (String.length q) < 2 ^ 31 - 1 ->
    components p = components q ->
    wfs_find_entry p w = wfs_find_entry q w.
Proof.
  intros p q w Hp Hq Hlp Hlq Hc.
  rewrite (find_entry_by_components p w Hp Hlp).
  rewrite (find_entry_by_components q w Hq Hlq).
  rewrite Hc. reflexivity.
Qed.

Lemma same_components_resolve_alike_witness :
  let p := "/d//a.txt/"%string in
  let q := "/d/a.txt"%string in
  let w := mount image_one_block_dir in
  absolute p /\ absolute q
  /\ Z.of_nat (String.length p) < 2 ^ 31 - 1
  /\ Z.of_nat (String.length q) < 2 ^ 31 - 1
  /\ components p = components q
  /\ wfs_find_entry p w = wfs_find_entry q w.
Proof.
  cbv zeta.
  assert (Hp : absolute "/d//a.txt/") by (split; [reflexivity | eexists; reflexivity]).
  assert (Hq : absolute "/d/a.txt") by (split; [reflexivity | eexists; reflexivity]).
  assert (Hlp : Z.of_nat (String.length "/d//a.txt/") < 2 ^ 31 - 1)
    by (vm_compute; reflexivity).
  assert (Hlq : Z.of_nat (String.length "/d/a.txt") < 2 ^ 31 - 1)
    by (vm_compute; reflexivity).
  assert (Hc : components "/d//a.txt/" = components "/d/a.txt") by reflexivity.
  split; [exact Hp|]. split; [exact Hq|]. split; [exact Hlp|].
  split; [exact Hlq|]. split; [exact Hc|].
  exact (same_components_resolve_alike "/d//a.txt/" "/d/a.txt"
           (mount image_one_block_dir) Hp Hq Hlp Hlq Hc).
Defined.

(** ** Paths of separators only *)

Lemma only_slashes_c_str s : skip_slashes s = EmptyString -> c_str s = s.
Proof.
  induction s as [|a s IH]; [reflexivity|].
  cbn [skip_slashes c_str]. destruct (Ascii.eqb a SLASH) eqn:E; [|discriminate].
  apply Ascii.eqb_eq in E. subst a. intros H.
  change (is_nul SLASH) with false. cbv iota. rewrite (IH H). reflexivity.
Qed.

Lemma find_entry_only_slashes t w :
  skip_slashes (String SLASH t) = EmptyString ->
  wfs_find_entry (String SLASH t) w = (Some zero_entry, w).
Proof.
  intros H. unfold wfs_find_entry. rewrite (only_slashes_c_str _ H).
  cbn [String.length Nat.eqb orb list_ascii_of_string hd].
  change (Ascii.eqb SLASH SLASH) with true. cbn [negb].
  rewrite bind_run. cbn [find_loop strchr].
  change (Ascii.eqb SLASH SLASH) with true. cbn [drop]. rewrite H.
  reflexivity.
Qed.

(** X8. A path that consists of separators only resolves to the root
    without a read. For the callbacks the root is a directory only
    under its name "/": [wfs_open] opens every such path like a file,
    and [wfs_getattr] reports "//" and longer ones as an empty regular
    file. *)
Theorem paths_of_separators_only :
  forall (t : string) (w : world),
    skip_slashes (String SLASH t) = EmptyString ->
    wfs_find_entry (String SLASH t) w = (Some zero_entry, w)
    /\ wfs_open (String SLASH t) w = (0, w)
    /\ wfs_getattr (String SLASH t) w
       = (if String.eqb t EmptyString
          then (0, mk_stat (Z.lor S_IFDIR 493) 2 0)
          else (0, mk_stat (Z.lor S_IFREG 292) 1 0), w).
Proof.
  intros t w H. pose proof (find_entry_only_slashes t w H) as Hf.
  split; [exact Hf|]. split.
  - unfold wfs_open. rewrite bind_run, Hf. reflexivity.
  - unfold wfs_getattr. rewrite (only_slashes_c_str _ H).
    destruct t as [|a t]; [reflexivity|].
    replace (String.eqb (String SLASH (String a t)) "/") with false by reflexivity.
    replace (String.eqb (String a t) EmptyString) with false by reflexivity.
    rewrite bind_run, Hf. reflexivity.
Qed.

Lemma paths_of_separators_only_witness :
  let w := mount image_one_block_dir in
  skip_slashes "//" = EmptyString
  /\ wfs_find_entry "//" w = (Some zero_entry, w)
  /\ wfs_open "//" w = (0, w)
  /\ wfs_getattr "//" w = (0, mk_stat (Z.lor S_IFREG 292) 1 0, w).
Proof.
  cbv zeta. split; [reflexivity|].
  exact (paths_of_separators_only "/" (mount image_one_block_dir) eq_refl).
Defined.

(** ** Parent and base name *)

Lemma drop_trailing_slashes_split s :
  exists tail, s = (drop_trailing_slashes s ++ tail)%string
               /\ skip_slashes tail = EmptyString.
Proof.
  induction s as [|c s IH]; [exists EmptyString; split; reflexivity|].
  destruct IH as [tail [Hs Ht]]. cbn [drop_trailing_slashes].
  destruct (drop_trailing_slashes s) as [|r rest] eqn:D.
  - cbn [append] in Hs. subst tail.
    destruct (Ascii.eqb c SLASH) eqn:E.
    + exists (String c s). split; [reflexivity|].
      cbn [skip_slashes]. rewrite E. exact Ht.
    + exists s. split; [reflexivity | exact Ht].
  - exists tail. split; [|exact Ht].
    cbn [append]. rewrite Hs at 1. reflexivity.
Qed.

Lemma drop_trailing_slashes_end s u :
  drop_trailing_slashes s <> (u ++ String SLASH EmptyString)%string.
Proof.
  revert u. induction s as [|c s IH]; intros u.
  - destruct u; discriminate.
  - cbn [drop_trailing_slashes].
    destruct (drop_trailing_slashes s) as [|r rest] eqn:D.
    + destruct (Ascii.eqb c SLASH) eqn:E.
      * destruct u; discriminate.
      * destruct u as [|x u]; cbn [append]; intros H; inversion H; subst.
        -- rewrite Ascii.eqb_refl in E. discriminate.
        -- destruct u; discriminate.
    + destruct u as [|x u]; cbn [append]; intros H; inversion H; subst.
      apply (IH u). assumption.
Qed.

Lemma strrchr_none_strchr c s : strrchr s c = None -> strchr s c = None.
Proof.
  induction s as [|a s IH]; [reflexivity|].
  cbn. destruct (strrchr s c); [discriminate|].
  destruct (Ascii.eqb a c); [discriminate|].
  intros _. rewrite IH; reflexivity.
Qed.

(** Where [strrchr] finds the character, none follows. *)
Lemma strrchr_some c : forall s k,
  strrchr s c = Some k ->
  s = (take k s ++ String c (drop (S k) s))%string
  /\ strchr (drop (S k) s) c = None.
Proof.
  induction s as [|a s IH]; intros k H; [discriminate|].
  cbn [strrchr] in H. destruct (strrchr s c) as [k'|] eqn:R.
  - inversion H; subst. destruct (IH k' eq_refl) as [Hs Hn].
    split; [|exact Hn].
    change (String a s = String a (take k' s ++ String c (drop (S k') s))%string).
    f_equal. exact Hs.
  - destruct (Ascii.eqb a c) eqn:E; [|discriminate].
    inversion H; subst. apply Ascii.eqb_eq in E. subst a.
    cbn [take drop append]. split; [reflexivity|].
    apply strrchr_none_strchr. exact R.
Qed.

Lemma components_from_only_slashes t : forall acc,
  skip_slashes t = EmptyString ->
  components_from t acc = components_from EmptyString acc.
Proof.
  induction t as [|c t IH]; intros acc H; [reflexivity|].
  cbn [skip_slashes] in H. cbn [components_from].
  destruct (Ascii.eqb c SLASH); [|discriminate].
  rewrite (IH EmptyString H). destruct acc; reflexivity.
Qed.

Lemma components_from_trailing s tail : forall acc,
  skip_slashes tail = EmptyString ->
  components_from (s ++ tail) acc = components_from s acc.
Proof.
  induction s as [|c s IH]; intros acc H.
  - apply components_from_only_slashes. exact H.
  - cbn [append components_from]. destruct (Ascii.eqb c SLASH).
    + rewrite (IH EmptyString H). reflexivity.
    + apply IH. exact H.
Qed.

Lemma components_from_app_slash a b : forall acc,
  components_from (a ++ String SLASH b) acc
  = components_from a acc ++ components_from b EmptyString.
Proof.
  induction a as [|c a IH]; intros acc.
  - cbn [append components_from]. change (Ascii.eqb SLASH SLASH) with true.
    destruct acc; reflexivity.
  - cbn [append components_from]. destruct (Ascii.eqb c SLASH).
    + rewrite (IH EmptyString). destruct acc; reflexivity.
    + apply IH.
Qed.

Lemma c_str_take n : forall s, c_str s = s -> c_str (take n s) = take n s.
Proof.
  induction n as [|n IH]; intros [|c s] H; try reflexivity.
  cbn in *. destruct (is_nul c); [discriminate|].
  inversion H as [H']. rewrite H'. rewrite (IH s H'). reflexivity.
Qed.

Lemma length_take_le n : forall s, (String.length (take n s) <= String.length s)%nat.
Proof.
  induction n as [|n IH]; intros [|c s]; cbn; try lia.
  specialize (IH s). lia.
Qed.

(** How the path falls into the part [wfs_get_parent_entry] resolves
    and the name [wfs_get_basename] returns. *)
Lemma path_splits path sep :
  c_str path = path ->
  strrchr (drop_trailing_slashes path) SLASH = Some sep ->
  let path_copy := drop_trailing_slashes path in
  let name := drop (S sep) path_copy in
  name <> EmptyString
  /\ strchr name SLASH = None
  /\ components path = components (take sep path_copy) ++ [name].
Proof.
  intros Hstr R path_copy name.
  destruct (strrchr_some _ _ _ R) as [Hs Hn]. fold path_copy name in Hs, Hn.
  assert (Hne : name <> EmptyString).
  { intros E. rewrite E in Hs.
    exact (drop_trailing_slashes_end path (take sep path_copy) Hs). }
  split; [exact Hne|]. split; [exact Hn|].
  destruct (drop_trailing_slashes_split path) as [tail [Hp Ht]].
  fold path_copy in Hp.
  unfold components at 1. rewrite Hp, (components_from_trailing _ _ _ Ht).
  rewrite Hs at 1. rewrite components_from_app_slash.
  fold (components (take sep path_copy)). f_equal.
  apply components_single; assumption.
Qed.

Lemma resolve_components_single c cur w :
  resolve_components [c] cur w = lookup_component cur c w.
Proof.
  cbn [resolve_components]. rewrite bind_run.
  destruct (lookup_component cur c w) as [[e|] w1]; reflexivity.
Qed.

Lemma resolve_components_app l1 : forall l2 cur w,
  resolve_components (l1 ++ l2) cur w
  = match fst (resolve_components l1 cur w) with
    | Some e => resolve_components l2 e (snd (resolve_components l1 cur w))
    | None => (None, snd (resolve_components l1 cur w))
    end.
Proof.
  induction l1 as [|c l1 IH]; intros l2 cur w; [reflexivity|].
  cbn [app resolve_components]. rewrite !bind_run.
  destruct (lookup_component cur c w) as [[e|] w1]; cbn [fst snd];
    [apply IH | reflexivity].
Qed.

Lemma absolute_path_copy path :
  absolute path ->
  c_str (drop_trailing_slashes path) = drop_trailing_slashes path
  /\ (String.length (drop_trailing_slashes path) <= String.length path)%nat
  /\ (drop_trailing_slashes path = EmptyString
      \/ exists r, drop_trailing_slashes path = String SLASH r).
Proof.
  intros [Hstr [t Ht]].
  destruct (drop_trailing_slashes_split path) as [tail [Hp Hs]].
  split; [|split].
  - apply (c_str_app _ tail). rewrite <- Hp. exact Hstr.
  - rewrite Hp at 2. rewrite length_append. lia.
  - destruct (drop_trailing_slashes path) as [|a r]; [left; reflexivity|].
    right. rewrite Ht in Hp. cbn [append] in Hp. inversion Hp; subst. eauto.
Qed.

Lemma basename_cases path :
  absolute path ->
  match wfs_get_basename path with
  | Some name => exists dirs, components path = dirs ++ [name]
  | None => components path = []
  end.
Proof.
  intros Ha. pose proof Ha as [Hstr _].
  destruct (absolute_path_copy path Ha) as [_ [_ Hhead]].
  unfold wfs_get_basename. rewrite Hstr.
  destruct (String.length (drop_trailing_slashes path) =? 0)%nat eqn:L.
  - apply Nat.eqb_eq in L.
    destruct (drop_trailing_slashes_split path) as [tail [Hp Hs]].
    destruct (drop_trailing_slashes path); [|discriminate].
    cbn [append] in Hp. subst tail. unfold components.
    rewrite (components_from_only_slashes _ _ Hs). reflexivity.
  - destruct (strrchr (drop_trailing_slashes path) SLASH) as [sep|] eqn:R.
    + destruct (path_splits path sep Hstr R) as [_ [_ Hc]].
      eexists. exact Hc.
    + exfalso. destruct Hhead as [E | [r E]].
      * rewrite E in L. discriminate.
      * apply strrchr_none_strchr in R. rewrite E in R. cbn in R.
        discriminate.
Qed.

(** X9. For an absolute path [wfs_get_basename] returns the last
    component of the path, whatever separators follow it, and NULL
    exactly when the path has no component. *)
Theorem basename_is_last_component :
  forall path : string,
    absolute path ->
    match wfs_get_basename path with
    | Some name => exists dirs, components path = dirs ++ [name]
    | None => components path = []
    end.
Proof. intros path Ha. exact (basename_cases path Ha). Qed.

Lemma basename_is_last_component_witness :
  absolute "/d/a.txt//"
  /\ wfs_get_basename "/d/a.txt//" = Some "a.txt"%string
  /\ exists dirs, components "/d/a.txt//" = dirs ++ ["a.txt"%string].
Proof.
  assert (Ha : absolute "/d/a.txt//") by (split; [reflexivity | eexists; reflexivity]).
  split; [exact Ha|]. split; [reflexivity|].
  exact (basename_is_last_component "/d/a.txt//" Ha).
Defined.

(** X10. When [wfs_get_parent_entry] returns 0, the entry it hands
    back is the root or carries the directory flag: a regular file is
    never handed back as a parent (the result is then -EIO). *)
Theorem parent_entry_is_root_or_directory :
  forall (path : string) (p parent : wfs_file_entry_t) (w w' : world),
    wfs_get_parent_entry path p w = ((0, parent), w') ->
    wfs_file_entry_is_empty parent = true
    \/ wfs_file_entry_is_directory parent = true.
Proof.
  intros path p parent w w' H. unfold wfs_get_parent_entry in H.
  destruct (String.length _ =? 0)%nat; [inversion H|].
  destruct (strrchr _ SLASH) as [[|sep]|]; [| |inversion H].
  - inversion H; subst. left. reflexivity.
  - rewrite bind_run in H.
    destruct (wfs_find_entry _ w) as [[e|] w1]; cbn [fst snd] in H;
      [|inversion H].
    destruct (wfs_file_entry_is_empty e) eqn:E; cbn [negb andb] in H.
    + inversion H; subst. left. exact E.
    + destruct (wfs_file_entry_is_directory e) eqn:Di; cbn [negb] in H;
        inversion H; subst. right. exact Di.
Qed.

Lemma parent_entry_is_root_or_directory_witness :
  let w := mount image_one_block_dir in
  fst (wfs_get_parent_entry "/d/new" zero_entry w) = (0, dir_d)
  /\ (wfs_file_entry_is_empty dir_d = true
      \/ wfs_file_entry_is_directory dir_d = true).
Proof.
  cbv zeta.
  assert (Hp : fst (wfs_get_parent_entry "/d/new" zero_entry
                      (mount image_one_block_dir)) = (0, dir_d))
    by (vm_compute; reflexivity).
  split; [exact Hp|].
  apply (parent_entry_is_root_or_directory "/d/new" zero_entry dir_d
           (mount image_one_block_dir)
           (snd (wfs_get_parent_entry "/d/new" zero_entry (mount image_one_block_dir)))).
  rewrite (surjective_pairing (wfs_get_parent_entry _ _ _)).
  rewrite Hp. reflexivity.
Defined.

(** X11. Parent and base name make up the path: when
    [wfs_get_parent_entry] returns 0 for an absolute path, resolving
    the whole path is looking up the name [wfs_get_basename] returns in
    the parent it hands back. *)
Theorem resolution_is_parent_then_basename :
  forall (path name : string) (p parent : wfs_file_entry_t) (w w1 : world),
    absolute path ->
    Z.of_nat (String.length path) < 2 ^ 31 - 1 ->
    wfs_get_basename path = Some name ->
    wfs_get_parent_entry path p w = ((0, parent), w1) ->
    wfs_find_entry path w = lookup_component parent name w1.
Proof.
  intros path name p parent w w1 Ha Hlen Hb Hp.
  pose proof Ha as [Hstr _].
  destruct (absolute_path_copy path Ha) as [Hcs [Hcl Hhead]].
  rewrite (find_entry_by_components path w Ha Hlen).
  unfold wfs_get_basename in Hb. unfold wfs_get_parent_entry in Hp.
  rewrite Hstr in Hb, Hp.
  destruct (String.length (drop_trailing_slashes path) =? 0)%nat; [discriminate|].
  destruct (strrchr (drop_trailing_slashes path) SLASH) as [sep|] eqn:R;
    [|discriminate].
  destruct (path_splits path sep Hstr R) as [_ [_ Hc]].
  inversion Hb; subst name. clear Hb. rewrite Hc.
  destruct sep as [|sep].
  - inversion Hp; subst. cbn [take components components_from app].
    apply resolve_components_single.
  - rewrite bind_run in Hp.
    set (dirname := take (S sep) (drop_trailing_slashes path)) in *.
    assert (Hd : absolute dirname).
    { split; [apply c_str_take; exact Hcs|].
      destruct Hhead as [E | [r E]].
      - rewrite E in R. discriminate.
      - subst dirname. rewrite E. cbn [take]. eauto. }
    assert (Hdl : Z.of_nat (String.length dirname) < 2 ^ 31 - 1).
    { pose proof (length_take_le (S sep) (drop_trailing_slashes path)).
      fold dirname in H. lia. }
    rewrite (find_entry_by_components dirname w Hd Hdl) in Hp.
    rewrite resolve_components_app.
    destruct (resolve_components (components dirname) zero_entry w)
      as [[e|] w2]; cbn [fst snd] in *; [|inversion Hp].
    destruct (negb (wfs_file_entry_is_empty e)
              && negb (wfs_file_entry_is_directory e)); inversion Hp; subst.
    apply resolve_components_single.
Qed.

Lemma resolution_is_parent_then_basename_witness :
  let w := mount image_one_block_dir in
  let w1 := snd (wfs_get_parent_entry "/d/a.txt" zero_entry w) in
  absolute "/d/a.txt"
  /\ Z.of_nat (String.length "/d/a.txt") < 2 ^ 31 - 1
  /\ wfs_get_basename "/d/a.txt" = Some "a.txt"%string
  /\ fst (wfs_get_parent_entry "/d/a.txt" zero_entry w) = (0, dir_d)
  /\ wfs_find_entry "/d/a.txt" w = lookup_component dir_d "a.txt" w1.
Proof.
  cbv zeta.
  assert (Ha : absolute "/d/a.txt") by (split; [reflexivity | eexists; reflexivity]).
  assert (Hl : Z.of_nat (String.length "/d/a.txt") < 2 ^ 31 - 1)
    by (vm_compute; reflexivity).
  assert (Hp : fst (wfs_get_parent_entry "/d/a.txt" zero_entry
                      (mount image_one_block_dir)) = (0, dir_d))
    by (vm_compute; reflexivity).
  split; [exact Ha|]. split; [exact Hl|]. split; [reflexivity|].
  split; [exact Hp|].
  apply (resolution_is_parent_then_basename "/d/a.txt" "a.txt" zero_entry dir_d
           (mount image_one_block_dir) _ Ha Hl eq_refl).
  rewrite (surjective_pairing (wfs_get_parent_entry _ _ _)).
  rewrite Hp. reflexivity.
Defined.

(** ** The callbacks *)




(** X13. [wfs_open] and [wfs_getattr] agree on every path other than
    "/": open returns 0 where getattr reports a regular file, EISDIR
    where it reports a directory, and ENOENT where it does; the size
    getattr reports is the 28-bit size of the entry. *)
Theorem open_agrees_with_getattr :
  forall (path : string) (w : world),
    c_str path <> "/"%string ->
    match fst (wfs_find_entry path w) with
    | None =>
        fst (wfs_open path w) = - ENOENT
        /\ fst (wfs_getattr path w) = (- ENOENT, mk_stat 0 0 0)
    | Some e =>
        0 <= wfs_file_entry_get_size e < 2 ^ 28
        /\ if wfs_file_entry_is_directory e
           then fst (wfs_open path w) = - EISDIR
                /\ fst (wfs_getattr path w)
                   = (0, mk_stat (Z.lor S_IFDIR 292) 2 (wfs_file_entry_get_size e))
           else fst (wfs_open path w) = 0
                /\ fst (wfs_getattr path w)
                   = (0, mk_stat (Z.lor S_IFREG 292) 1 (wfs_file_entry_get_size e))
    end.
Proof.
  intros path w Hroot. unfold wfs_open, wfs_getattr.
  apply String.eqb_neq in Hroot. rewrite Hroot. rewrite !bind_run.
  destruct (wfs_find_entry path w) as [[e|] w1]; cbn [fst snd];
    [|split; reflexivity].
  split.
  - unfold wfs_file_entry_get_size. change WFS_SIZE_MASK with (Z.ones 28).
    rewrite Z.land_ones by lia. apply Z.mod_pos_bound. lia.
  - destruct (wfs_file_entry_is_directory e); split; reflexivity.
Qed.

Lemma open_agrees_with_getattr_witness :
  let w := mount image_one_block_dir in
  c_str "/d/a.txt" <> "/"%string
  /\ fst (wfs_open "/d/a.txt" w) = 0
  /\ fst (wfs_getattr "/d/a.txt" w) = (0, mk_stat (Z.lor S_IFREG 292) 1 5).
Proof.
  cbv zeta.
  assert (Hn : c_str "/d/a.txt" <> "/"%string) by (vm_compute; discriminate).
  split; [exact Hn|].
  pose proof (open_agrees_with_getattr "/d/a.txt" (mount image_one_block_dir) Hn)
    as H.
  assert (Hf : fst (wfs_find_entry "/d/a.txt" (mount image_one_block_dir))
               = Some (entry_of_bytes (entry_bytes "a.txt" 3 5)))
    by (vm_compute; reflexivity).
  rewrite Hf in H. destruct H as [_ H].
  change (wfs_file_entry_is_directory (entry_of_bytes (entry_bytes "a.txt" 3 5)))
    with false in H.
  change (wfs_file_entry_get_size (entry_of_bytes (entry_bytes "a.txt" 3 5)))
    with 5 in H.
  exact H.
Defined.



(** ** Where a file's bytes are *)

Lemma chain_block_succ img start j :
  chain_block img start (S j) = successor img (chain_block img start j).
Proof. reflexivity. Qed.

Lemma chain_block_shift img start j :
  chain_block img (successor img start) j = chain_block img start (S j).
Proof.
  induction j as [|j IH]; [reflexivity|].
  rewrite chain_block_succ, IH. reflexivity.
Qed.

Lemma block_table_read_successor block w :
  fst (wfs_block_table_read (to_u16 (block - 1)) w) = successor (image w) block.
Proof. unfold successor. apply block_table_read_image. Qed.

(** The walk of [wfs_get_current_block] over [fuel] whole blocks ends
    at the end sentinel or at the [fuel]-th block of the chain. *)
Lemma current_block_loop_result fuel :
  forall off o block w res w',
    o + WFS_BLOCK_SIZE * Z.of_nat fuel <= off ->
    current_block_loop fuel off o block w = (res, w') ->
    match res with
    | inl b => b = WFS_BLOCK_EOF
    | inr (b, o') =>
        b = chain_block (image w) block fuel
        /\ o' = o + WFS_BLOCK_SIZE * Z.of_nat fuel
    end.
Proof.
  unfold WFS_BLOCK_SIZE.
  induction fuel as [|fuel IH]; intros off o block w res w' Hoff H;
    cbn [current_block_loop] in H; unfold WFS_BLOCK_SIZE in H.
  - inversion H; subst. split; [reflexivity | lia].
  - replace (off >=? o + 512) with true in H
      by (symmetry; rewrite Z.geb_leb; apply Z.leb_le; lia).
    rewrite bind_run in H.
    pose proof (block_table_read_successor block w) as Hnext.
    pose proof (read_only_block_table_read (to_u16 (block - 1)) w) as [Himg _].
    destruct (wfs_block_table_read (to_u16 (block - 1)) w) as [nb w1].
    cbn [fst snd] in *. subst nb.
    destruct (successor (image w) block =? WFS_BLOCK_EOF) eqn:E.
    + inversion H; subst. apply Z.eqb_eq in E. exact E.
    + apply IH in H; [|lia].
      destruct res as [b | [b o']]; [exact H|].
      destruct H as [Hb Ho]. rewrite Himg in Hb.
      rewrite chain_block_shift in Hb. split; [exact Hb | lia].
Qed.

(** X15. Unless it returns the end sentinel, [wfs_get_current_block]
    returns the block of the chain that holds the offset, which is
    block number [off / 512] counted from the start block, and the
    place [off mod 512] of the offset within it. *)
Theorem current_block_holds_offset :
  forall (entry : wfs_file_entry_t) (off bp0 block bp : Z) (w w' : world),
    wfs_get_current_block entry off bp0 w = ((block, bp), w') ->
    0 <= off ->
    block <> WFS_BLOCK_EOF ->
    block = chain_block (image w) (start_block entry)
              (Z.to_nat (off / WFS_BLOCK_SIZE))
    /\ bp = off mod WFS_BLOCK_SIZE.
Proof.
  intros entry off bp0 block bp w w' H Hoff Hb.
  unfold wfs_get_current_block in H.
  destruct (start_block entry =? WFS_BLOCK_EOF) eqn:E.
  { inversion H; subst. apply Z.eqb_eq in E. contradiction. }
  rewrite bind_run in H.
  destruct (current_block_loop _ off 0 (start_block entry) w) as [res w1] eqn:L.
  apply current_block_loop_result in L.
  - cbn [fst snd] in H. destruct res as [b | [b o]].
    + inversion H; subst. contradiction.
    + destruct L as [Lb Lo]. inversion H; subst. split; [reflexivity|].
      unfold WFS_BLOCK_SIZE in *.
      rewrite Z2Nat.id by (apply Z.div_pos; lia).
      pose proof (Z.mod_pos_bound off 512 ltac:(lia)).
      pose proof (Z.div_mod off 512 ltac:(lia)).
      unfold to_u16. rewrite Z.mod_small by lia. lia.
  - unfold WFS_BLOCK_SIZE. rewrite Z2Nat.id by (apply Z.div_pos; lia).
    pose proof (Z.mod_pos_bound off 512 ltac:(lia)).
    pose proof (Z.div_mod off 512 ltac:(lia)). lia.
Qed.

Lemma current_block_holds_offset_witness :
  let w := mount image_one_block_file in
  let e := entry_of_bytes (entry_bytes "f" 1 512) in
  fst (wfs_get_current_block e 500 0 w) = (1, 500)
  /\ 0 <= 500
  /\ 1 <> WFS_BLOCK_EOF
  /\ 1 = chain_block (image w) (start_block e) (Z.to_nat (500 / WFS_BLOCK_SIZE))
  /\ 500 = 500 mod WFS_BLOCK_SIZE.
Proof.
  cbv zeta.
  assert (Hr : fst (wfs_get_current_block (entry_of_bytes (entry_bytes "f" 1 512))
                      500 0 (mount image_one_block_file)) = (1, 500))
    by (vm_compute; reflexivity).
  assert (H0 : 0 <= 500) by lia.
  assert (Hn : 1 <> WFS_BLOCK_EOF) by (unfold WFS_BLOCK_EOF; lia).
  split; [exact Hr|]. split; [exact H0|]. split; [exact Hn|].
  apply (current_block_holds_offset (entry_of_bytes (entry_bytes "f" 1 512))
           500 0 1 500 (mount image_one_block_file)
           (snd (wfs_get_current_block (entry_of_bytes (entry_bytes "f" 1 512))
                   500 0 (mount image_one_block_file))));
    [| exact H0 | exact Hn].
  rewrite (surjective_pairing (wfs_get_current_block _ _ _ _)).
  rewrite Hr. reflexivity.
Defined.

Lemma pread_bytes count offset w n got w' :
  pread count offset w = ((n, got), w') ->
  0 <= offset ->
  got = map (fun k => content (image w) (offset + Z.of_nat k)) (seq 0 (Z.to_nat n))
  /\ image w' = image w.
Proof.
  unfold pread. intros H Ho.
  replace (offset <? 0) with false in H by (symmetry; apply Z.ltb_ge; lia).
  inversion H; subst; clear H. split; [|reflexivity].
  unfold image_bytes. rewrite length_map, length_seq, Nat2Z.id. reflexivity.
Qed.

Lemma read_loop_done fuel block bp read buf w :
  read_loop fuel 0 block bp read buf w = (Some (read, buf), w).
Proof. destruct fuel; reflexivity. Qed.

Lemma file_bytes_cons img e pos n :
  file_bytes img e pos (S n) = file_byte img e pos :: file_bytes img e (pos + 1) n.
Proof.
  unfold file_bytes. cbn [seq map]. rewrite <- seq_shift, map_map.
  f_equal; [f_equal; lia|].
  apply map_ext. intros k. f_equal. lia.
Qed.

Lemma file_bytes_app img e a : forall pos b,
  file_bytes img e pos (a + b)
  = file_bytes img e pos a ++ file_bytes img e (pos + Z.of_nat a) b.
Proof.
  induction a as [|a IH]; intros pos b.
  - cbn [Nat.add]. unfold file_bytes at 2. cbn [seq map app].
    f_equal. lia.
  - cbn [Nat.add]. rewrite !file_bytes_cons, IH. cbn [app].
    do 3 f_equal. lia.
Qed.

(** The bytes a transfer within one block delivers are the file's. *)
Lemma block_bytes_are_file_bytes img e pos block bp n :
  0 <= pos ->
  block = chain_block img (start_block e) (Z.to_nat (pos / WFS_BLOCK_SIZE)) ->
  bp = pos mod WFS_BLOCK_SIZE ->
  Z.of_nat n <= WFS_BLOCK_SIZE - bp ->
  map (fun k => content img (wfs_get_block_offset (block - 1) + bp + Z.of_nat k))
      (seq 0 n)
  = file_bytes img e pos n.
Proof.
  unfold WFS_BLOCK_SIZE. intros Hpos Hb Hbp Hn.
  unfold file_bytes. apply map_ext_in. intros k Hk.
  apply in_seq in Hk. unfold file_byte, WFS_BLOCK_SIZE.
  pose proof (Z.mod_pos_bound pos 512 ltac:(lia)) as Hm.
  pose proof (Z.div_mod pos 512 ltac:(lia)) as Hd.
  assert (Hq : (pos + Z.of_nat k) / 512 = pos / 512).
  { symmetry. apply (Z.div_unique _ _ _ (pos mod 512 + Z.of_nat k)); lia. }
  assert (Hr : (pos + Z.of_nat k) mod 512 = pos mod 512 + Z.of_nat k).
  { symmetry. apply (Z.mod_unique _ _ (pos / 512)); lia. }
  rewrite Hq, Hr, <- Hb, <- Hbp. f_equal. lia.
Qed.

Section ReadDelivers.
Variable img : wfs_image_t.
Variable e : wfs_file_entry_t.
Hypothesis full_size : wfs_get_size <= image_size img.

(** The read loop: what it has stored in the buffer when it returns a
    count. [pos] is the place in the file the loop stands at. *)
Lemma read_loop_delivers fuel :
  forall size block bp read buf pos w r data w',
    image w = img ->
    0 <= size -> 0 <= read -> read + size < 2 ^ 31 ->
    0 <= pos ->
    block < WFS_BLOCK_EOF ->
    0 <= bp < WFS_BLOCK_SIZE ->
    (0 < size ->
     block = chain_block img (start_block e) (Z.to_nat (pos / WFS_BLOCK_SIZE))
     /\ bp = pos mod WFS_BLOCK_SIZE) ->
    read_loop fuel size block bp read buf w = (Some (r, data), w') ->
    0 <= r ->
    read <= r <= read + size
    /\ data = buf ++ file_bytes img e pos (Z.to_nat (r - read))
    /\ (0 < block -> r = read + size).
Proof.
  unfold WFS_BLOCK_SIZE, WFS_BLOCK_EOF.
  induction fuel as [|fuel IH];
    intros size block bp read buf pos w r data w' Himg Hs Hrd Hsum Hpos Hblk Hbp
           Hat H Hr;
    cbn [read_loop] in H;
    destruct ((0 <? size) && (WFS_BLOCK_FREE <? block) && (block <=? WFS_BLOCK_EOF))
      eqn:C;
    try discriminate.
  1, 3: (apply andb_false_iff in C; inversion H; subst;
         replace (r - r) with 0 by lia; unfold file_bytes; cbn [Z.to_nat seq map];
         rewrite app_nil_r; split; [lia|]; split; [reflexivity|]; intros Hb0;
         destruct C as [C | C];
         [ apply andb_false_iff in C; destruct C as [C | C];
           [ apply Z.ltb_ge in C; lia
           | apply Z.ltb_ge in C; unfold WFS_BLOCK_FREE in C; lia ]
         | apply Z.leb_gt in C; unfold WFS_BLOCK_EOF in C; lia ]).
  apply andb_prop in C. destruct C as [C _].
  apply andb_prop in C. destruct C as [C1 C2].
  apply Z.ltb_lt in C1. apply Z.ltb_lt in C2. unfold WFS_BLOCK_FREE in C2.
  destruct (Hat C1) as [Hblock Hbpos].
  unfold WFS_BLOCK_SIZE, to_u16 in H.
  rewrite (Z.mod_small 512) in H by lia.
  rewrite (Z.mod_small (512 - bp)) in H by lia.
  set (t0 := if bp =? 0 then 512 else 512 - bp) in H.
  assert (Ht0 : t0 = 512 - bp).
  { subst t0. destruct (bp =? 0) eqn:E; [apply Z.eqb_eq in E; lia | reflexivity]. }
  set (t1 := if t0 >? size then size mod 2 ^ 16 else t0) in H.
  assert (Ht1 : t1 = Z.min (512 - bp) size).
  { subst t1. destruct (t0 >? size) eqn:G.
    - apply Z.gtb_lt in G. rewrite Z.mod_small by lia. lia.
    - rewrite Z.gtb_ltb in G. apply Z.ltb_ge in G. lia. }
  rewrite bind_run in H.
  pose proof (block_offset_nonneg (block - 1)) as Hoff.
  destruct (pread t1 (wfs_get_block_offset (block - 1) + bp) w)
    as [[n got] w1] eqn:P.
  pose proof (pread_count _ _ _ _ _ _ P ltac:(lia) ltac:(lia)) as [Hn _].
  pose proof (pread_inside_image t1 (wfs_get_block_offset (block - 1) + bp) w)
    as Hfull.
  rewrite P in Hfull. cbn [fst] in Hfull.
  apply pread_bytes in P; [|lia]. destruct P as [Hgot Himg1].
  rewrite Himg in Hgot, Himg1.
  cbn [fst snd] in H.
  rewrite (Z.mod_small n) in H by lia.
  unfold to_u64, to_int in H.
  rewrite (Z.mod_small (size - n)) in H by lia.
  rewrite (Z.mod_small (read + n + 2 ^ 31)) in H by lia.
  replace (read + n + 2 ^ 31 - 2 ^ 31) with (read + n) in H by lia.
  assert (Hbytes : got = file_bytes img e pos (Z.to_nat n)).
  { rewrite Hgot.
    rewrite <- (block_bytes_are_file_bytes img e pos block bp (Z.to_nat n));
      [| lia | exact Hblock | exact Hbpos | unfold WFS_BLOCK_SIZE; lia].
    apply map_ext. intros k. f_equal; lia. }
  destruct (0 <? size - n) eqn:More.
  - apply Z.ltb_lt in More. rewrite bind_run in H.
    rewrite (Z.mod_small block) in H by lia.
    destruct (Z_le_gt_dec block WFS_N_BLOCKS) as [Hin | Hout];
      unfold WFS_N_BLOCKS in *.
    + (* a block of the image *)
      assert (Hnt : n = t1).
      { apply Hfull; [lia | lia |].
        rewrite Himg. unfold wfs_get_block_offset, to_u32.
        change WFS_DATA_START with 36880. change WFS_BLOCK_SIZE with 512.
        rewrite Z.mod_small by lia.
        change wfs_get_size with 8425488 in full_size. lia. }
      destruct (next_block_reads_own_slot block w1 ltac:(unfold WFS_N_BLOCKS; lia))
        as [Hnb _].
      pose proof (block_table_read_successor block w1) as Hsucc.
      unfold to_u16 in Hsucc. rewrite (Z.mod_small (block - 1)) in Hsucc by lia.
      rewrite <- Hnb, Himg1 in Hsucc.
      pose proof (read_only_get_next_block block w1) as [Himg2 _].
      destruct (wfs_get_next_block block w1) as [nb w2].
      cbn [fst snd] in *.
      destruct ((nb =? WFS_BLOCK_FREE) || (nb >=? WFS_BLOCK_EOF)) eqn:Bad.
      { inversion H; subst. unfold EIO in Hr. lia. }
      apply orb_false_iff in Bad. destruct Bad as [B1 B2].
      apply Z.eqb_neq in B1. rewrite Z.geb_leb in B2. apply Z.leb_gt in B2.
      unfold WFS_BLOCK_FREE, WFS_BLOCK_EOF in B1, B2.
      assert (Hnb0 : 0 <= nb).
      { rewrite Hsucc. unfold successor, wfs_block_table_read.
        rewrite bind_run.
        destruct (pread 2 _ (mount img)) as [[x y] z]. cbn [fst snd ret].
        unfold le16, byte_val. lia. }
      assert (Hq : (pos + n) / 512 = pos / 512 + 1
                   /\ (pos + n) mod 512 = 0).
      { pose proof (Z.mod_pos_bound pos 512 ltac:(lia)) as Hm.
        pose proof (Z.div_mod pos 512 ltac:(lia)) as Hd.
        split.
        - symmetry. apply (Z.div_unique _ _ _ 0); lia.
        - symmetry. apply (Z.mod_unique _ _ (pos / 512 + 1)); lia. }
      destruct Hq as [Hq1 Hq2].
      apply (IH _ _ _ _ _ (pos + n)) in H; try lia.
      * destruct H as [Hrange [Hdata Hall]].
        split; [lia|]. split.
        -- rewrite Hdata, Hbytes, <- app_assoc. f_equal.
           replace (Z.to_nat (r - read))
             with (Z.to_nat n + Z.to_nat (r - (read + n)))%nat by lia.
           rewrite file_bytes_app.
           replace (Z.of_nat (Z.to_nat n)) with n by lia. reflexivity.
        -- intros _.
           assert (Hpos' : 0 < nb) by (clear - B1 Hnb0; lia).
           specialize (Hall Hpos'). clear - Hall. lia.
      * congruence.
      * intros _. rewrite Hq1, Hq2. split; [|reflexivity].
        rewrite Z2Nat.inj_add by (try apply Z.div_pos; lia).
        replace (Z.to_nat (pos / 512) + Z.to_nat 1)%nat
          with (S (Z.to_nat (pos / 512))) by lia.
        rewrite chain_block_succ, <- Hblock. exact Hsucc.
    + (* beyond the table: the chain ends here *)
      rewrite (next_block_rejects_high_blocks block w1) in H
        by (right; unfold WFS_N_BLOCKS; lia).
      cbn [fst snd] in H. cbn in H. inversion H; subst. lia.
  - apply Z.ltb_ge in More.
    replace (size - n) with 0 in H by lia.
    rewrite read_loop_done in H. inversion H; subst.
    split; [lia|]. split; [|intros _; lia].
    f_equal. rewrite Hbytes. f_equal. lia.
Qed.

End ReadDelivers.

(** X16. What [wfs_read] delivers. On an image of full size, a read
    that returns a count [r] has stored in the buffer the [r] bytes of
    the file from [offset] on, each taken from the block of the chain
    its place falls into; and unless the block at [offset] is the free
    block, [r] is all that was asked for, cut at the recorded size. *)
Theorem read_delivers_file_bytes :
  forall (fuel : nat) (path : string) (size offset : Z) (w : world)
         (e : wfs_file_entry_t) (r : Z) (data : list ascii) (w' : world),
    wfs_get_size <= image_size (image w) ->
    0 <= size < 2 ^ 63 ->
    - 2 ^ 63 <= offset < 2 ^ 63 ->
    fst (wfs_find_entry path w) = Some e ->
    wfs_read fuel path size offset w = (Some (r, data), w') ->
    0 <= r ->
    data = file_bytes (image w) e offset (Z.to_nat r)
    /\ (0 < chain_block (image w) (start_block e)
              (Z.to_nat (offset / WFS_BLOCK_SIZE)) ->
        r = Z.min size (wfs_file_entry_get_size e - offset)).
Proof.
  intros fuel path size offset w e r data w' Hfull Hsize Hoff Hfind H Hr.
  unfold wfs_read in H. rewrite bind_run, Hfind in H.
  assert (Hcs : 0 <= wfs_file_entry_get_size e < 2 ^ 28).
  { unfold wfs_file_entry_get_size.
    change WFS_SIZE_MASK with (Z.ones 28).
    rewrite Z.land_ones by lia. apply Z.mod_pos_bound. lia. }
  set (cs := wfs_file_entry_get_size e) in *.
  destruct (to_u64 offset >? cs) eqn:G.
  { inversion H; subst. unfold EINVAL in Hr. lia. }
  rewrite Z.gtb_ltb in G. apply Z.ltb_ge in G.
  assert (Hoff' : 0 <= offset <= cs).
  { unfold to_u64 in G. destruct (Z_lt_dec offset 0) as [Hneg|Hpos].
    - replace offset with (offset + 2 ^ 64 + (-1) * 2 ^ 64) in G by lia.
      rewrite Z.mod_add, Z.mod_small in G; lia.
    - rewrite Z.mod_small in G; lia. }
  rewrite bind_uninitialised, bind_run in H.
  pose proof (read_only_find_entry path w) as [Himg0 _].
  set (w1 := snd (wfs_find_entry path w)) in *.
  match type of H with
  | context [wfs_get_current_block e offset ?b w1] =>
      pose proof (read_only_get_current_block e offset b w1) as [Himg1 _];
      destruct (wfs_get_current_block e offset b w1) as [[block bp] w2] eqn:B
  end.
  cbn [fst snd] in H, Himg1.
  destruct (block >=? WFS_BLOCK_EOF) eqn:E.
  { inversion H; subst. unfold EIO in Hr. lia. }
  rewrite Z.geb_leb in E. apply Z.leb_gt in E.
  pose proof (get_current_block_position _ _ _ _ _ _ _ B ltac:(lia) ltac:(lia))
    as Hbp.
  assert (Hat : block = chain_block (image w) (start_block e)
                          (Z.to_nat (offset / WFS_BLOCK_SIZE))
                /\ bp = offset mod WFS_BLOCK_SIZE).
  { unfold wfs_get_current_block in B.
    destruct (start_block e =? WFS_BLOCK_EOF) eqn:S0.
    { inversion B; subst. apply Z.eqb_eq in S0. lia. }
    rewrite bind_run in B.
    destruct (current_block_loop _ offset 0 (start_block e) w1) as [res w3] eqn:L.
    pose proof (Z.mod_pos_bound offset 512 ltac:(lia)) as Hm.
    pose proof (Z.div_mod offset 512 ltac:(lia)) as Hd.
    apply current_block_loop_result in L.
    - cbn [fst snd] in B. destruct res as [b | [b o]].
      + inversion B; subst. lia.
      + destruct L as [Lb Lo]. inversion B; subst. rewrite Himg0.
        split; [reflexivity|].
        unfold WFS_BLOCK_SIZE in *.
        rewrite Z2Nat.id by (apply Z.div_pos; lia).
        unfold to_u16. rewrite Z.mod_small by lia. lia.
    - unfold WFS_BLOCK_SIZE. rewrite Z2Nat.id by (apply Z.div_pos; lia). lia. }
  unfold to_u64 in H.
  rewrite (Z.mod_small (offset + size)) in H by lia.
  rewrite (Z.mod_small (cs - offset)) in H by lia.
  assert (Hw2 : image w2 = image w) by congruence.
  destruct Hat as [Hblock Hbpos].
  destruct (offset + size >? cs) eqn:Clamp.
  - apply Z.gtb_lt in Clamp.
    apply (read_loop_delivers (image w) e Hfull fuel _ _ _ _ _ offset) in H;
      try lia; [| exact Hw2].
    destruct H as [_ [Hdata Hall]]. cbn [app] in Hdata.
    rewrite Z.sub_0_r in Hdata. split; [exact Hdata|].
    intros Hb. rewrite <- Hblock in Hb. specialize (Hall Hb). lia.
  - rewrite Z.gtb_ltb in Clamp. apply Z.ltb_ge in Clamp.
    apply (read_loop_delivers (image w) e Hfull fuel _ _ _ _ _ offset) in H;
      try lia; [| exact Hw2].
    destruct H as [_ [Hdata Hall]]. cbn [app] in Hdata.
    rewrite Z.sub_0_r in Hdata. split; [exact Hdata|].
    intros Hb. rewrite <- Hblock in Hb. specialize (Hall Hb). lia.
Qed.

Lemma read_delivers_file_bytes_witness :
  let w := mount image_two_block_file in
  let e := entry_of_bytes (entry_bytes "g"%string 3 600) in
  wfs_get_size <= image_size (image w)
  /\ 0 <= 2 < 2 ^ 63
  /\ - 2 ^ 63 <= 511 < 2 ^ 63
  /\ fst (wfs_find_entry "/g"%string w) = Some e
  /\ fst (wfs_read 4 "/g"%string 2 511 w) = Some (2, ["A"%char; "B"%char])
  /\ ["A"%char; "B"%char] = file_bytes (image w) e 511 (Z.to_nat 2)
  /\ (0 < chain_block (image w) (start_block e)
             (Z.to_nat (511 / WFS_BLOCK_SIZE)) ->
      2 = Z.min 2 (wfs_file_entry_get_size e - 511)).
Proof.
  cbv zeta.
  assert (Hfull : wfs_get_size <= image_size (image (mount image_two_block_file)))
    by apply Z.le_refl.
  assert (Hfind : fst (wfs_find_entry "/g"%string (mount image_two_block_file))
                  = Some (entry_of_bytes (entry_bytes "g"%string 3 600)))
    by (vm_compute; reflexivity).
  assert (Hread : fst (wfs_read 4 "/g"%string 2 511 (mount image_two_block_file))
                  = Some (2, ["A"%char; "B"%char]))
    by (vm_compute; reflexivity).
  split; [exact Hfull|]. split; [lia|]. split; [lia|].
  split; [exact Hfind|]. split; [exact Hread|].
  apply (read_delivers_file_bytes 4 "/g"%string 2 511 (mount image_two_block_file)
           (entry_of_bytes (entry_bytes "g"%string 3 600)) 2
           ["A"%char; "B"%char]
           (snd (wfs_read 4 "/g"%string 2 511 (mount image_two_block_file))));
    [exact Hfull | lia | lia | exact Hfind | | lia].
  rewrite (surjective_pairing (wfs_read _ _ _ _ _)).
  rewrite Hread. reflexivity.
Defined.

(** ** The layout of an image *)

Lemma table_read_reads idx w :
  reads_of (wfs_block_table_read idx) w
  = [(to_u32 (WFS_BLOCK_TABLE_START + idx * 2), 2)].
Proof.
  unfold reads_of, wfs_block_table_read. rewrite bind_run.
  unfold pread.
  destruct (to_u32 (WFS_BLOCK_TABLE_START + idx * 2) <? 0);
    cbn [fst snd ret reads];
    rewrite skipn_app, skipn_all, Nat.sub_diag; reflexivity.
Qed.

(** X18. The regions of an image lie one behind the other. The read
    [wfs_block_table_read] does for an index below [WFS_N_BLOCKS] is of
    two bytes inside the allocation table, which begins where the 64
    records end and ends where the data begin; the data blocks follow
    in the order of their numbers without overlap, and the last one
    ends where the image of [wfs_get_size] bytes ends. *)
Theorem table_and_blocks_do_not_overlap :
  forall (i j : Z) (w : world),
    0 <= i -> i <= j -> j < WFS_N_BLOCKS ->
    (exists off,
        reads_of (wfs_block_table_read i) w = [(off, 2)]
        /\ WFS_ENTRIES_START + WFS_N_FILES * sizeof_entry <= off
        /\ off + 2 <= WFS_DATA_START)
    /\ WFS_DATA_START <= wfs_get_block_offset i
    /\ (i < j ->
        wfs_get_block_offset i + WFS_BLOCK_SIZE <= wfs_get_block_offset j)
    /\ wfs_get_block_offset j + WFS_BLOCK_SIZE <= wfs_get_size
    /\ (j = WFS_N_BLOCKS - 1 ->
        wfs_get_block_offset j + WFS_BLOCK_SIZE = wfs_get_size).
Proof.
  intros i j w Hi Hij Hj. unfold WFS_N_BLOCKS in *.
  assert (Oi : wfs_get_block_offset i = 36880 + i * 512).
  { unfold wfs_get_block_offset, to_u32.
    change WFS_DATA_START with 36880. change WFS_BLOCK_SIZE with 512.
    apply Z.mod_small. lia. }
  assert (Oj : wfs_get_block_offset j = 36880 + j * 512).
  { unfold wfs_get_block_offset, to_u32.
    change WFS_DATA_START with 36880. change WFS_BLOCK_SIZE with 512.
    apply Z.mod_small. lia. }
  rewrite Oi, Oj.
  change WFS_DATA_START with 36880. change WFS_BLOCK_SIZE with 512.
  change wfs_get_size with 8425488.
  change (WFS_ENTRIES_START + WFS_N_FILES * sizeof_entry) with 4112.
  split; [| lia].
  exists (4112 + i * 2). split; [| lia].
  rewrite table_read_reads. change WFS_BLOCK_TABLE_START with 4112.
  unfold to_u32. rewrite Z.mod_small by lia. reflexivity.
Qed.

Lemma table_and_blocks_do_not_overlap_witness :
  0 <= 0 /\ 0 <= 16383 /\ 16383 < WFS_N_BLOCKS
  /\ wfs_get_block_offset 0 + WFS_BLOCK_SIZE <= wfs_get_block_offset 16383
  /\ wfs_get_block_offset 16383 + WFS_BLOCK_SIZE = wfs_get_size.
Proof.
  assert (H0 : 0 <= 0) by lia.
  assert (H1 : 0 <= 16383) by lia.
  assert (H2 : 16383 < WFS_N_BLOCKS) by (unfold WFS_N_BLOCKS; lia).
  split; [exact H0|]. split; [exact H1|]. split; [exact H2|].
  destruct (table_and_blocks_do_not_overlap 0 16383 (mount image_one_block_file)
              H0 H1 H2) as [_ [_ [Hlt [_ Hlast]]]].
  split; [apply Hlt; lia | apply Hlast; reflexivity].
Defined.

(** ** What [wfs_check_image] accepts *)

Lemma byte_val_range c : 0 <= byte_val c < 256.
Proof.
  unfold byte_val. pose proof (N_ascii_bounded c). lia.
Qed.

Lemma byte_val_inj a b : byte_val a = byte_val b -> a = b.
Proof.
  unfold byte_val. intros H. apply N2Z.inj in H.
  rewrite <- (ascii_N_embedding a), <- (ascii_N_embedding b), H. reflexivity.
Qed.

Lemma le32_inj a0 a1 a2 a3 b0 b1 b2 b3 :
  le32 a0 a1 a2 a3 = le32 b0 b1 b2 b3 ->
  a0 = b0 /\ a1 = b1 /\ a2 = b2 /\ a3 = b3.
Proof.
  unfold le32. intros H.
  pose proof (byte_val_range a0). pose proof (byte_val_range a1).
  pose proof (byte_val_range a2). pose proof (byte_val_range a3).
  pose proof (byte_val_range b0). pose proof (byte_val_range b1).
  pose proof (byte_val_range b2). pose proof (byte_val_range b3).
  repeat split; apply byte_val_inj; lia.
Qed.

(** X19. [wfs_check_image] accepts a regular file exactly when it is
    at least [wfs_get_size] bytes long and begins with the sixteen
    bytes of the four magic numbers, each with its low byte first. *)
Theorem check_image_accepts_size_and_magic :
  forall img : wfs_image_t,
    wfs_check_image img = true
    <-> wfs_get_size <= image_size img
        /\ image_bytes img 0 16
           = map byte_of [238; 255; 192; 0;  0; 0; 0; 0;
                          80; 19; 13; 240;  239; 190; 0; 0].
Proof.
  intros img. unfold wfs_check_image.
  assert (M0 : WFS_MAGIC0 = le32 (byte_of 238) (byte_of 255) (byte_of 192) (byte_of 0))
    by (vm_compute; reflexivity).
  assert (M1 : WFS_MAGIC1 = le32 (byte_of 0) (byte_of 0) (byte_of 0) (byte_of 0))
    by (vm_compute; reflexivity).
  assert (M2 : WFS_MAGIC2 = le32 (byte_of 80) (byte_of 19) (byte_of 13) (byte_of 240))
    by (vm_compute; reflexivity).
  assert (M3 : WFS_MAGIC3 = le32 (byte_of 239) (byte_of 190) (byte_of 0) (byte_of 0))
    by (vm_compute; reflexivity).
  assert (Hb : wfs_get_size <= image_size img ->
               image_bytes img 0 16
               = map (content img) [0; 1; 2; 3; 4; 5; 6; 7; 8; 9; 10; 11; 12; 13; 14; 15]).
  { intros Hs. unfold image_bytes.
    change wfs_get_size with 8425488 in Hs.
    replace (Z.min 16 (image_size img - 0)) with 16 by lia.
    reflexivity. }
  destruct (image_size img <? wfs_get_size) eqn:S.
  { apply Z.ltb_lt in S. split; [discriminate | intros [Hs _]; lia]. }
  apply Z.ltb_ge in S. rewrite (Hb S). unfold word_at.
  cbn [map Z.add Pos.add Pos.succ].
  split.
  - intros H. split; [exact S|].
    apply negb_true_iff in H.
    apply orb_false_iff in H. destruct H as [H H3].
    apply orb_false_iff in H. destruct H as [H H2].
    apply orb_false_iff in H. destruct H as [H0 H1].
    apply negb_false_iff, Z.eqb_eq in H0, H1, H2, H3.
    rewrite M0 in H0. rewrite M1 in H1. rewrite M2 in H2. rewrite M3 in H3.
    apply le32_inj in H0, H1, H2, H3.
    destruct H0 as (-> & -> & -> & ->). destruct H1 as (-> & -> & -> & ->).
    destruct H2 as (-> & -> & -> & ->). destruct H3 as (-> & -> & -> & ->).
    reflexivity.
  - intros [_ H].
    injection H as -> -> -> -> -> -> -> -> -> -> -> -> -> -> -> ->.
    rewrite <- M0, <- M1, <- M2, <- M3, !Z.eqb_refl. reflexivity.
Qed.

(** ** The read comes to an end *)

Lemma wfs_read_returns_witness :
  let w := mount image_two_block_file in
  wfs_get_size <= image_size (image w)
  /\ 0 <= 600 < 2 ^ 63
  /\ - 2 ^ 63 <= 0 < 2 ^ 63
  /\ (Z.to_nat (Z.min 600 WFS_SIZE_MASK) <= 600)%nat
  /\ fst (wfs_read 600 "/g"%string 600 0 w) <> None.
Proof.
  cbv zeta.
  assert (Hfull : wfs_get_size <= image_size (image (mount image_two_block_file)))
    by apply Z.le_refl.
  assert (Hfuel : (Z.to_nat (Z.min 600 WFS_SIZE_MASK) <= 600)%nat)
    by (unfold WFS_SIZE_MASK; lia).
  split; [exact Hfull|]. split; [lia|]. split; [lia|]. split; [exact Hfuel|].
  apply (wfs_read_returns 600 "/g"%string 600 0 (mount image_two_block_file));
    [exact Hfull | lia | lia | exact Hfuel].
Defined.

Lemma check_image_accepts_size_and_magic_witness :
  wfs_check_image image_two_block_file = true.
Proof.
  apply (proj2 (check_image_accepts_size_and_magic image_two_block_file)).
  split; [apply Z.le_refl | vm_compute; reflexivity].
Defined.
